(** * Tic-Tac-Toe (src/src/App.js): a shallow embedding and its properties

    The definitions follow the source:
    - module [JS]: the JavaScript values and array operations the program
      uses;
    - [lines], [calculateWinner];
    - the [Board] component: [handleClick] and the status line;
    - the [Game] component: [history], [currentMove], [handlePlay],
      [jumpTo], and a click on a square of the rendered game;
    - what [Square], [Board] and [Game] render: the squares with their
      click handlers, the status line and the list [moves].

    Boards are JavaScript arrays, which are mutable objects handled by
    reference.  They live in a store; [history] is a list of references into
    it.  The [history] array itself is only ever replaced by a fresh one
    ([setHistory]), so it is kept as a plain list. *)

From stdpp Require Import base option list strings pretty.



(** ** JavaScript values and arrays *)

Module JS.

(** The values a square can hold: [null] (from [Array(9).fill(null)]), a
    string (["X"], ["O"]), and [undefined], which is what reading a hole or
    an index past the end of an array gives. *)
Inductive value : Type :=
| VUndefined
| VNull
| VStr (s : string).

(** Truthiness, as used by [if (v)], [v && w] and [v || w]. *)
Definition truthy (v : value) : bool :=
  match v with
  | VUndefined | VNull => false
  | VStr s => negb (String.eqb s "")
  end.

(** Strict equality [v === w]. *)
Definition strict_eq (v w : value) : bool :=
  match v, w with
  | VUndefined, VUndefined => true
  | VNull, VNull => true
  | VStr s, VStr t => String.eqb s t
  | _, _ => false
  end.

(** String conversion, as done by ["..." + v]. *)
Definition to_string (v : value) : string :=
  match v with
  | VUndefined => "undefined"
  | VNull => "null"
  | VStr s => s
  end.

(** [a[i]]: out of range reads give [undefined]. *)
Definition array_get (a : list value) (i : nat) : value :=
  default VUndefined (a !! i).

(** [a[i] = v]: in range the element is replaced; past the end the array
    grows to length [i + 1] and the skipped indices are holes. *)
Definition array_set (a : list value) (i : nat) (v : value) : list value :=
  if decide (i < length a) then <[i:=v]> a
  else a ++ replicate (i - length a) VUndefined ++ [v].

(** [Array(n).fill(v)] *)
Definition array_fill (n : nat) (v : value) : list value := replicate n v.

(** [a.slice(0, n)] for a list; [a.slice()] is the whole list. *)
Definition slice_to {A} (n : nat) (a : list A) : list A := take n a.

End JS.
Import JS.

(** ** calculateWinner *)

(** The table [lines] of the source, in its order. *)
Definition lines : list (nat * nat * nat) :=
  [ (0, 1, 2); (3, 4, 5); (6, 7, 8);
    (0, 3, 6); (1, 4, 7); (2, 5, 8);
    (0, 4, 8); (2, 4, 6) ].

(** The test of the loop body:
    [squares[a] && squares[a] === squares[b] && squares[a] === squares[c]]. *)
Definition line_wins (squares : list value) (l : nat * nat * nat) : bool :=
  let '(a, b, c) := l in
  truthy (array_get squares a)
  && strict_eq (array_get squares a) (array_get squares b)
  && strict_eq (array_get squares a) (array_get squares c).

(** The [for] loop over a remaining part of the table: return at the first
    line that passes the test, [null] when the table is exhausted. *)
Fixpoint scan_lines (squares : list value) (ls : list (nat * nat * nat)) : value :=
  match ls with
  | [] => VNull
  | (a, b, c) :: rest =>
      if line_wins squares (a, b, c) then array_get squares a
      else scan_lines squares rest
  end.

Definition calculateWinner (squares : list value) : value :=
  scan_lines squares lines.

(** ** The store of board arrays *)

(** A reference to an array is its position in the store; allocation appends. *)
Abbreviation loc := nat (only parsing).
Abbreviation store := (list (list value)) (only parsing).

(** [squares.slice()]: a fresh array with the elements of the one at [l]. *)
Definition array_slice (sigma : store) (l : loc) : option (store * loc) :=
  a ← sigma !! l; Some (sigma ++ [a], length sigma).

(** [arr[i] = v] for the array at [l], in place. *)
Definition array_write (sigma : store) (l : loc) (i : nat) (v : value) : store :=
  alter (λ a, array_set a i v) l sigma.

(** ** The Board component *)

Section Board.

(** The props of [Board]; [onPlay] is represented by what [handleClick]
    returns. *)
Variable xIsNext : bool.
Variable squares : loc.

(** [handleClick(i)].  The result is [None] when [squares] is no array (the
    component did not render), and otherwise the store after the call
    together with the argument [onPlay] was called with, if it was called:
    the early [return] gives [None] there. *)
Definition handleClick (i : nat) (sigma : store) : option (store * option loc) :=
  sq ← sigma !! squares;
  if truthy (array_get sq i) || truthy (calculateWinner sq) then
    Some (sigma, None)
  else
    '(sigma1, nextSquares) ← array_slice sigma squares;
    let sigma2 :=
      if xIsNext then array_write sigma1 nextSquares i (VStr "X")
      else array_write sigma1 nextSquares i (VStr "O") in
    Some (sigma2, Some nextSquares).

(** The status line computed while rendering, from the array [sq] that
    [squares] refers to. *)
Definition status (sq : list value) : string :=
  let winner := calculateWinner sq in
  if truthy winner then "Winner: " +:+ to_string winner
  else "Next player: " +:+ (if xIsNext then "X" else "O").

End Board.

(** ** The Game component *)

(** The two [useState] cells of [Game], and the store their references point
    into. *)
Record game : Type := mkGame {
  heap : store;
  history : list loc;
  currentMove : nat
}.

(** [useState([Array(9).fill(null)])] and [useState(0)] *)
Definition initial : game :=
  {| heap := [array_fill 9 VNull]; history := [0]; currentMove := 0 |}.

(** [currentMove % 2 === 0] *)
Definition xIsNext (g : game) : bool := currentMove g mod 2 =? 0.

(** [history[currentMove]]; [None] is [undefined]. *)
Definition currentSquares (g : game) : option loc :=
  history g !! currentMove g.

(** [handlePlay(nextSquares)], in a store [sigma] that already holds the array
    [nextSquares] refers to. *)
Definition handlePlay (g : game) (sigma : store) (nextSquares : loc) : game :=
  let nextHistory := slice_to (currentMove g + 1) (history g) ++ [nextSquares] in
  {| heap := sigma; history := nextHistory; currentMove := length nextHistory - 1 |}.

(** [jumpTo(nextMove)] *)
Definition jumpTo (g : game) (nextMove : nat) : game :=
  {| heap := heap g; history := history g; currentMove := nextMove |}.

(** A click on square [i] of the rendered game: [Game] passes [xIsNext],
    [currentSquares] and [handlePlay] to [Board], whose square [i] calls
    [handleClick(i)].  When [currentSquares] is [undefined], rendering
    [Board] throws at [calculateWinner(squares)] and there is nothing to
    click: the result is [None]. *)
Definition click (g : game) (i : nat) : option game :=
  squares ← currentSquares g;
  '(sigma, played) ← handleClick (xIsNext g) squares i (heap g);
  match played with
  | None => Some {| heap := sigma; history := history g; currentMove := currentMove g |}
  | Some nextSquares => Some (handlePlay g sigma nextSquares)
  end.

(** The array behind entry [k] of the history. *)
Definition board_at (g : game) (k : nat) : option (list value) :=
  l ← history g !! k; heap g !! l.

(** The status line of the rendered game. *)
Definition game_status (g : game) : option string :=
  sq ← board_at g (currentMove g); Some (status (xIsNext g) sq).

(** ** Vocabulary of the properties *)

(** A cell is occupied when it holds a mark, that is a truthy value; [null],
    holes and out of range cells are empty. *)
Definition occupied (v : value) : Prop := truthy v = true.

(** A line is completed when its three cells are occupied and equal. *)
Definition completed (squares : list value) (l : nat * nat * nat) : Prop :=
  occupied (array_get squares l.1.1)
  ∧ array_get squares l.1.1 = array_get squares l.1.2
  ∧ array_get squares l.1.1 = array_get squares l.2.

(** The eight lines by name, for a row-major 3x3 board. *)
Definition row (r : nat) : nat * nat * nat := (3 * r, 3 * r + 1, 3 * r + 2).
Definition col (c : nat) : nat * nat * nat := (c, c + 3, c + 6).
Definition diag0 : nat * nat * nat := (0, 4, 8).
Definition diag1 : nat * nat * nat := (2, 4, 6).

Definition enumeration : list (nat * nat * nat) :=
  [row 0; row 1; row 2; col 0; col 1; col 2; diag0; diag1].

(** The number of marks on a board. *)
Definition marks_placed (squares : list value) : nat :=
  sum_list_with (λ v, if truthy v then 1 else 0) squares.

(** The mark of the player to move at cursor [c]. *)
Definition mark_of_parity (c : nat) : string :=
  if Nat.even c then "X" else "O".

(** A click on square [i] is accepted when the current board exists, its
    cell [i] is empty and it has no winner. *)
Definition accepted (g : game) (i : nat) : Prop :=
  ∃ sq, board_at g (currentMove g) = Some sq
        ∧ truthy (array_get sq i) = false
        ∧ calculateWinner sq = VNull.

(** The states the rendered game can be brought to: clicks on squares and
    jumps, from the initial state.  Jumps are not restricted to the indices
    the move list offers. *)
Inductive reachable : game → Prop :=
| reachable_initial : reachable initial
| reachable_click g i g' :
    reachable g → click g i = Some g' → reachable g'
| reachable_jumpTo g nextMove :
    reachable g → reachable (jumpTo g nextMove).

(** Every entry of the history refers to an array of the store, and the
    array at entry [k] carries [k] marks. *)
Definition counted (g : game) : Prop :=
  ∀ k l, history g !! k = Some l →
    ∃ sq, heap g !! l = Some sq ∧ marks_placed sq = k.

(** Playing a list of squares from a state. *)
Definition clicks (g : game) (moves : list nat) : option game :=
  foldl (λ og i, g' ← og; click g' i) (Some g) moves.

(** ** Sample boards and games *)

Definition mX : value := VStr "X".
Definition mO : value := VStr "O".

Definition empty_board : list value := array_fill 9 VNull.

(** Top and middle rows both completed, by different marks. *)
Definition two_rows_board : list value :=
  [mX; mX; mX;
   mO; mO; mO;
   VNull; VNull; VNull].

(** A full board without three in a row. *)
Definition drawn_board : list value :=
  [mX; mO; mX;
   mX; mO; mO;
   mO; mX; mX].

(** The game after X took square 0 and O took square 4. *)
Definition two_moves_game : game :=
  {| heap := [ empty_board;
               [mX; VNull; VNull; VNull; VNull; VNull; VNull; VNull; VNull];
               [mX; VNull; VNull; VNull; mO; VNull; VNull; VNull; VNull] ];
     history := [0; 1; 2];
     currentMove := 2 |}.

(** The game of the scenario 0, 4, 1, 3, 2: X wins on the top row. *)
Definition won_game : game :=
  {| heap := [ empty_board;
               [mX; VNull; VNull; VNull; VNull; VNull; VNull; VNull; VNull];
               [mX; VNull; VNull; VNull; mO; VNull; VNull; VNull; VNull];
               [mX; mX; VNull; VNull; mO; VNull; VNull; VNull; VNull];
               [mX; mX; VNull; mO; mO; VNull; VNull; VNull; VNull];
               [mX; mX; mX; mO; mO; VNull; VNull; VNull; VNull] ];
     history := [0; 1; 2; 3; 4; 5];
     currentMove := 5 |}.

(** ** Rendering *)

(** What [Square] returns: a button that shows [value] and calls
    [onSquareClick] when clicked.  The handlers [Board] passes are
    [() => handleClick(i)]; the index [i] stands for the handler. *)
Record square_view : Type := mkSquare {
  shown : value;
  onSquareClick : nat
}.

Definition Square (value : value) (onSquareClick : nat) : square_view :=
  mkSquare value onSquareClick.

(** What [Board] returns for the array [sq] its [squares] prop refers to:
    the status line and the three [board-row]s. *)
Record board_view : Type := mkBoard {
  status_line : string;
  board_rows : list (list square_view)
}.

Definition Board (xIsNext : bool) (sq : list value) : board_view :=
  {| status_line := status xIsNext sq;
     board_rows :=
       [ [Square (array_get sq 0) 0; Square (array_get sq 1) 1; Square (array_get sq 2) 2];
         [Square (array_get sq 3) 3; Square (array_get sq 4) 4; Square (array_get sq 5) 5];
         [Square (array_get sq 6) 6; Square (array_get sq 7) 7; Square (array_get sq 8) 8] ] |}.

(** The text of a move button; [pretty] prints the number in decimal, as the
    template literal does. *)
Definition description (move : nat) : string :=
  if 0 <? move then "Go to move #" +:+ pretty move
  else "Go to game start".

(** An entry of the list [moves]: its [key], the text of its button, and the
    argument its [onClick] passes to [jumpTo]. *)
Record move_view : Type := mkMove {
  key : nat;
  button_text : string;
  onClick : nat
}.

(** [history.map((squares, move) => ...)] *)
Definition moves (g : game) : list move_view :=
  imap (λ move _, mkMove move (description move) move) (history g).

(** What [Game] returns; [None] when rendering throws because
    [currentSquares] is [undefined]. *)
Record game_view : Type := mkView {
  game_board : board_view;
  game_info : list move_view
}.

Definition Game (g : game) : option game_view :=
  sq ← board_at g (currentMove g);
  Some {| game_board := Board (xIsNext g) sq; game_info := moves g |}.

(** The states a user can bring the game to: from the initial state, by
    clicking a square or a move button of what [Game] rendered. *)
Inductive ui_reachable : game → Prop :=
| ui_initial : ui_reachable initial
| ui_square g v sq g' :
    ui_reachable g →
    Game g = Some v →
    sq ∈ concat (board_rows (game_board v)) →
    click g (onSquareClick sq) = Some g' →
    ui_reachable g'
| ui_move g v mv :
    ui_reachable g →
    Game g = Some v →
    mv ∈ game_info v →
    ui_reachable (jumpTo g (onClick mv)).

(** The number of cells that hold the mark [m]. *)
Definition count_mark (m : string) (squares : list value) : nat :=
  sum_list_with (λ v, if strict_eq v (VStr m) then 1 else 0) squares.

(** The history is a chain of moves: entry 0 is the empty board, and every
    later entry is the entry before it, which had no winner, with the mark
    of that move written into one of its empty cells; [ok] holds of the
    index of that cell. *)
Definition history_chain (ok : nat → Prop) (g : game) : Prop :=
  board_at g 0 = Some (array_fill 9 VNull)
  ∧ ∀ k sq', board_at g (S k) = Some sq' →
      ∃ sq i, ok i
        ∧ board_at g k = Some sq
        ∧ truthy (array_get sq i) = false
        ∧ calculateWinner sq = VNull
        ∧ sq' = array_set sq i (VStr (mark_of_parity k)).

(** The values a cell of a played board can hold. *)
Definition cell_value (v : value) : Prop :=
  v = VNull ∨ v = VStr "X" ∨ v = VStr "O".

(** * Properties *)

(** ** JavaScript values *)

Section Values.

Lemma strict_eq_true (v w : value) : strict_eq v w = true ↔ v = w.
Proof.
  destruct v as [| |s], w as [| |t]; simpl; split; try done.
  - intros Hst. apply String.eqb_eq in Hst. by subst.
  - intros [= ->]. apply String.eqb_refl.
Qed.

Lemma truthy_string (v : value) :
  truthy v = true → ∃ s, v = VStr s ∧ s ≠ ""%string.
Proof.
  destruct v as [| |s]; simpl; try done.
  intros Hs. exists s. split; [done|].
  intros ->. done.
Qed.

Lemma array_get_lookup (a : list value) (i : nat) (v : value) :
  a !! i = Some v → array_get a i = v.
Proof. unfold array_get. by intros ->. Qed.

Lemma array_get_ge (a : list value) (i : nat) :
  length a ≤ i → array_get a i = VUndefined.
Proof. intros Hi. unfold array_get. by rewrite lookup_ge_None_2. Qed.

End Values.

(** ** calculateWinner *)

Section Winner.

Variable squares : list value.

Lemma line_wins_completed (l : nat * nat * nat) :
  line_wins squares l = true ↔ completed squares l.
Proof.
  destruct l as [[a b] c]. unfold line_wins, completed, occupied. simpl.
  rewrite !andb_true_iff, !strict_eq_true. tauto.
Qed.

Lemma line_wins_not_completed (l : nat * nat * nat) :
  line_wins squares l = false ↔ ¬ completed squares l.
Proof.
  rewrite <- line_wins_completed. destruct (line_wins squares l); split; congruence.
Qed.

(** The loop returns at the first completed line of the table it is given. *)
Lemma scan_lines_first (ls : list (nat * nat * nat)) (k : nat) (l : nat * nat * nat) :
  ls !! k = Some l →
  completed squares l →
  (∀ j l', j < k → ls !! j = Some l' → ¬ completed squares l') →
  scan_lines squares ls = array_get squares l.1.1.
Proof.
  revert k. induction ls as [|[[a b] c] rest IH]; intros k Hk Hl Hbefore.
  - done.
  - cbn [scan_lines]. destruct k as [|k].
    + injection Hk as <-. apply line_wins_completed in Hl. by rewrite Hl.
    + assert (line_wins squares (a, b, c) = false) as ->.
      { apply line_wins_not_completed. apply (Hbefore 0); [lia|done]. }
      apply (IH k); [done|done|].
      intros j l' Hj Hl'. apply (Hbefore (S j)); [lia|done].
Qed.

(** The loop falls through when no line of the table is completed. *)
Lemma scan_lines_none (ls : list (nat * nat * nat)) :
  (∀ l, l ∈ ls → ¬ completed squares l) → scan_lines squares ls = VNull.
Proof.
  induction ls as [|[[a b] c] rest IH]; intros Hnone; [done|].
  cbn [scan_lines]. assert (line_wins squares (a, b, c) = false) as ->.
  { apply line_wins_not_completed, Hnone. left. }
  apply IH. intros l Hl. apply Hnone. by right.
Qed.

(** Among the lines of a table with a completed one there is a first. *)
Lemma first_completed (ls : list (nat * nat * nat)) :
  (∃ l, l ∈ ls ∧ completed squares l) →
  ∃ k l, ls !! k = Some l ∧ completed squares l
         ∧ ∀ j l', j < k → ls !! j = Some l' → ¬ completed squares l'.
Proof.
  induction ls as [|l0 rest IH]; intros (l & Hin & Hl).
  - by apply elem_of_nil in Hin.
  - destruct (line_wins squares l0) eqn:Hw.
    + exists 0, l0. split; [done|]. split; [by apply line_wins_completed|].
      intros j l' Hj. lia.
    + apply line_wins_not_completed in Hw.
      apply elem_of_cons in Hin as [->|Hin]; [done|].
      destruct IH as (k & l1 & Hk & Hl1 & Hbefore); [by exists l|].
      exists (S k), l1. split; [done|]. split; [done|].
      intros [|j] l' Hj Hl'.
      * by injection Hl' as <-.
      * apply (Hbefore j); [lia|done].
Qed.

(** What the loop returns is [null] or a mark. *)
Lemma scan_lines_null_or_mark (ls : list (nat * nat * nat)) :
  scan_lines squares ls = VNull ∨ occupied (scan_lines squares ls).
Proof.
  induction ls as [|[[a b] c] rest IH]; [by left|].
  cbn [scan_lines]. destruct (line_wins squares (a, b, c)) eqn:Hw; [|done].
  right. apply line_wins_completed in Hw. apply Hw.
Qed.

Lemma calculateWinner_null_or_mark :
  calculateWinner squares = VNull ∨ occupied (calculateWinner squares).
Proof. apply scan_lines_null_or_mark. Qed.

End Winner.

Lemma lines_enumeration : lines = enumeration.
Proof. reflexivity. Qed.

(** C1. On every board with at least one completed line (three equal
    occupied cells in a row, column or diagonal), [calculateWinner] returns
    the mark on the completed line that comes first in the order row 0,
    row 1, row 2, column 0, column 1, column 2, diagonal 0, diagonal 1. *)
Theorem calculateWinner_first_completed (squares : list value) :
  (∃ l, l ∈ enumeration ∧ completed squares l) →
  ∃ k l,
    enumeration !! k = Some l
    ∧ completed squares l
    ∧ (∀ j l', j < k → enumeration !! j = Some l' → ¬ completed squares l')
    ∧ calculateWinner squares = array_get squares l.1.1
    ∧ occupied (calculateWinner squares).
Proof.
  intros Hsome.
  destruct (first_completed squares enumeration Hsome) as (k & l & Hk & Hl & Hbefore).
  exists k, l. split; [done|]. split; [done|]. split; [done|].
  assert (calculateWinner squares = array_get squares l.1.1) as Hw.
  { unfold calculateWinner. rewrite lines_enumeration.
    by apply (scan_lines_first squares enumeration k l). }
  split; [done|]. rewrite Hw. apply Hl.
Qed.

Lemma calculateWinner_first_completed_witness :
  (∃ l, l ∈ enumeration ∧ completed two_rows_board l)
  ∧ ∃ k l,
      enumeration !! k = Some l
      ∧ completed two_rows_board l
      ∧ (∀ j l', j < k → enumeration !! j = Some l' → ¬ completed two_rows_board l')
      ∧ calculateWinner two_rows_board = array_get two_rows_board l.1.1
      ∧ occupied (calculateWinner two_rows_board).
Proof.
  assert (∃ l, l ∈ enumeration ∧ completed two_rows_board l) as Hsome.
  { exists (row 1). split; [|by vm_compute].
    right. left. }
  split; [exact Hsome|].
  exact (calculateWinner_first_completed two_rows_board Hsome).
Defined.

(** C2. On every board where none of the eight lines is completed,
    [calculateWinner] returns [null]; the empty board and a full board
    without three in a row are such boards. *)
Theorem calculateWinner_no_line (squares : list value) :
  (∀ l, l ∈ enumeration → ¬ completed squares l) →
  calculateWinner squares = VNull.
Proof.
  intros Hnone. unfold calculateWinner. rewrite lines_enumeration.
  by apply scan_lines_none.
Qed.

Lemma calculateWinner_no_line_witness :
  (∀ l, l ∈ enumeration → ¬ completed drawn_board l)
  ∧ calculateWinner drawn_board = VNull.
Proof.
  assert (∀ l, l ∈ enumeration → ¬ completed drawn_board l) as Hnone.
  { intros l Hl. apply line_wins_not_completed.
    unfold enumeration in Hl.
    repeat (apply elem_of_cons in Hl as [->|Hl]; [reflexivity|]).
    by apply elem_of_nil in Hl. }
  split; [exact Hnone|].
  exact (calculateWinner_no_line drawn_board Hnone).
Defined.

Example calculateWinner_empty_board : calculateWinner empty_board = VNull.
Proof. reflexivity. Qed.

Example calculateWinner_two_rows : calculateWinner two_rows_board = mX.
Proof. reflexivity. Qed.

(** ** Array updates *)

Section ArraySet.

Variables (a : list value) (i : nat) (v : value).

Lemma array_get_set_eq : array_get (array_set a i v) i = v.
Proof.
  unfold array_set. case_decide as Hi.
  - apply array_get_lookup. by apply list_lookup_insert_eq.
  - apply array_get_lookup.
    rewrite lookup_app_r by lia.
    rewrite lookup_app_r by (rewrite length_replicate; lia).
    rewrite length_replicate. by replace (i - length a - (i - length a)) with 0 by lia.
Qed.

Lemma array_get_set_ne (j : nat) : j ≠ i → array_get (array_set a i v) j = array_get a j.
Proof.
  intros Hj. unfold array_set. case_decide as Hi.
  - unfold array_get. by rewrite list_lookup_insert_ne.
  - destruct (decide (j < length a)) as [Hlt|Hge].
    + unfold array_get. by rewrite lookup_app_l.
    + rewrite (array_get_ge a j) by lia.
      unfold array_get. rewrite lookup_app_r by lia.
      destruct (decide (j - length a < i - length a)) as [Hhole|Hpast].
      * rewrite lookup_app_l by (by rewrite length_replicate).
        by rewrite lookup_replicate_2.
      * rewrite lookup_ge_None_2; [done|].
        rewrite length_app, length_replicate. simpl. lia.
Qed.

Lemma array_set_length_in_range : i < length a → length (array_set a i v) = length a.
Proof. intros Hi. unfold array_set. rewrite decide_True by done. apply length_insert. Qed.


End ArraySet.

(** ** Counting marks *)

Lemma marks_placed_app (a b : list value) :
  marks_placed (a ++ b) = marks_placed a + marks_placed b.
Proof. apply sum_list_with_app. Qed.

Lemma marks_placed_holes (n : nat) : marks_placed (replicate n VUndefined) = 0.
Proof. induction n as [|n IH]; [done|]. simpl. apply IH. Qed.

Lemma marks_placed_cons (w : value) (a : list value) :
  marks_placed (w :: a) = (if truthy w then 1 else 0) + marks_placed a.
Proof. reflexivity. Qed.

Lemma marks_placed_insert (a : list value) (i : nat) (v : value) :
  i < length a →
  truthy (array_get a i) = false →
  truthy v = true →
  marks_placed (<[i:=v]> a) = S (marks_placed a).
Proof.
  revert i. induction a as [|w a IH]; intros i Hi Hempty Hv; simpl in Hi; [lia|].
  destruct i as [|i].
  - change (<[0:=v]> (w :: a)) with (v :: a). rewrite !marks_placed_cons.
    change (array_get (w :: a) 0) with w in Hempty. by rewrite Hempty, Hv.
  - change (<[S i:=v]> (w :: a)) with (w :: <[i:=v]> a). rewrite !marks_placed_cons.
    rewrite IH; [lia|lia|done|done].
Qed.

(** Writing a mark into an empty cell adds one mark, also when the write
    extends the array. *)
Lemma marks_placed_array_set (a : list value) (i : nat) (v : value) :
  truthy (array_get a i) = false →
  truthy v = true →
  marks_placed (array_set a i v) = S (marks_placed a).
Proof.
  intros Hempty Hv. unfold array_set. case_decide as Hi.
  - by apply marks_placed_insert.
  - rewrite !marks_placed_app, marks_placed_holes.
    rewrite marks_placed_cons, Hv. change (marks_placed []) with 0. lia.
Qed.

(** ** The store *)

Section Store.

Variable sigma : store.

(** Allocation leaves every array of the store where and as it was. *)
Lemma store_lookup_alloc (a : list value) (l : loc) (b : list value) :
  sigma !! l = Some b → (sigma ++ [a]) !! l = Some b.
Proof. intros Hl. by apply lookup_app_l_Some. Qed.

Lemma store_lookup_fresh (a : list value) :
  sigma !! length sigma = None ∧ (sigma ++ [a]) !! length sigma = Some a.
Proof.
  split; [by apply lookup_ge_None_2|]. by apply list_lookup_middle.
Qed.

(** Copying an array and writing to the copy is allocation of the updated
    array. *)
Lemma array_write_fresh (a : list value) (i : nat) (v : value) :
  array_write (sigma ++ [a]) (length sigma) i v = sigma ++ [array_set a i v].
Proof.
  unfold array_write. rewrite alter_app_r_alt by lia.
  by replace (length sigma - length sigma) with 0 by lia.
Qed.

End Store.

(** ** handleClick *)

Section HandleClick.

Variables (xn : bool) (squares : loc) (i : nat) (sigma : store) (sq : list value).
Hypothesis Hsquares : sigma !! squares = Some sq.

(** The early return: [onPlay] is not called and the store is as before. *)
Lemma handleClick_rejected :
  truthy (array_get sq i) || truthy (calculateWinner sq) = true →
  handleClick xn squares i sigma = Some (sigma, None).
Proof.
  intros Hrej. unfold handleClick. rewrite Hsquares. simpl. by rewrite Hrej.
Qed.

(** Otherwise [onPlay] is called with a fresh array: the copy of [sq] with
    the mark of the player to move written at [i]. *)
Lemma handleClick_accepted :
  truthy (array_get sq i) = false →
  calculateWinner sq = VNull →
  handleClick xn squares i sigma =
    Some (sigma ++ [array_set sq i (VStr (if xn then "X" else "O"))],
          Some (length sigma)).
Proof.
  intros Hempty Hnowin. unfold handleClick, array_slice.
  rewrite Hsquares. simpl. rewrite Hempty, Hnowin. simpl.
  destruct xn; by rewrite array_write_fresh.
Qed.

End HandleClick.

(** C8. When [handleClick] accepts the move, the board handed to [onPlay] is
    a new array that holds the mark at index [i] and agrees with the input
    board at every other index; the input board, and every other array
    that existed before, is left as it was. *)
Theorem handleClick_fresh_board
    (xn : bool) (squares : loc) (i : nat) (sigma : store) (sq : list value) :
  sigma !! squares = Some sq →
  truthy (array_get sq i) = false →
  calculateWinner sq = VNull →
  ∃ sigma' nextSquares sq',
    handleClick xn squares i sigma = Some (sigma', Some nextSquares)
    ∧ sigma !! nextSquares = None
    ∧ sigma' !! nextSquares = Some sq'
    ∧ array_get sq' i = VStr (if xn then "X" else "O")
    ∧ (∀ j, j ≠ i → array_get sq' j = array_get sq j)
    ∧ (i < length sq → length sq' = length sq)
    ∧ sigma' !! squares = Some sq
    ∧ (∀ l a, sigma !! l = Some a → sigma' !! l = Some a).
Proof.
  intros Hsquares Hempty Hnowin.
  set (m := VStr (if xn then "X" else "O")).
  exists (sigma ++ [array_set sq i m]), (length sigma), (array_set sq i m).
  split; [by apply handleClick_accepted|].
  split; [apply (store_lookup_fresh sigma sq)|].
  split; [apply (store_lookup_fresh sigma)|].
  split; [apply array_get_set_eq|].
  split; [intros j Hj; by apply array_get_set_ne|].
  split; [apply array_set_length_in_range|].
  split; [by apply store_lookup_alloc|].
  intros l a Hl. by apply store_lookup_alloc.
Qed.

Lemma handleClick_fresh_board_witness :
  ∃ sigma' nextSquares sq',
    handleClick true 0 4 [empty_board] = Some (sigma', Some nextSquares)
    ∧ [empty_board] !! nextSquares = None
    ∧ sigma' !! nextSquares = Some sq'
    ∧ array_get sq' 4 = VStr "X"
    ∧ (∀ j, j ≠ 4 → array_get sq' j = array_get empty_board j)
    ∧ (4 < length empty_board → length sq' = length empty_board)
    ∧ sigma' !! 0 = Some empty_board
    ∧ (∀ l a, [empty_board] !! l = Some a → sigma' !! l = Some a).
Proof.
  apply (handleClick_fresh_board true 0 4 [empty_board] empty_board);
    reflexivity.
Defined.

(** ** The Game component *)

Lemma xIsNext_even (g : game) : xIsNext g = Nat.even (currentMove g).
Proof.
  unfold xIsNext. generalize (currentMove g) as c. intros c.
  destruct (Nat.even c) eqn:Hc.
  - apply Nat.even_spec in Hc as [k ->]. apply Nat.eqb_eq.
    rewrite Nat.mul_comm. apply Nat.Div0.mod_mul.
  - apply Nat.eqb_neq. intros Hmod.
    apply Nat.Div0.mod_divides in Hmod as [k ->].
    rewrite Nat.even_mul in Hc. done.
Qed.

Lemma xIsNext_mark (g : game) :
  (if xIsNext g then "X" else "O") = mark_of_parity (currentMove g).
Proof. unfold mark_of_parity. by rewrite xIsNext_even. Qed.

Lemma board_at_Some (g : game) (k : nat) (sq : list value) :
  board_at g k = Some sq ↔ ∃ l, history g !! k = Some l ∧ heap g !! l = Some sq.
Proof.
  unfold board_at. destruct (history g !! k) as [l|]; simpl.
  - split; [intros Hl; by exists l|]. by intros (l' & [= <-] & Hl).
  - split; [done|]. by intros (l' & [=] & _).
Qed.

Section Click.

Variables (g : game) (i : nat) (sq : list value).
Hypothesis Hcurrent : board_at g (currentMove g) = Some sq.

Lemma current_in_range : currentMove g < length (history g).
Proof.
  apply board_at_Some in Hcurrent as (l & Hl & _). by apply lookup_lt_Some in Hl.
Qed.

(** A rejected click changes nothing. *)
Lemma click_rejected :
  truthy (array_get sq i) || truthy (calculateWinner sq) = true →
  click g i = Some g.
Proof.
  intros Hrej. apply board_at_Some in Hcurrent as (l & Hl & Hsq).
  unfold click, currentSquares. rewrite Hl. simpl.
  rewrite (handleClick_rejected _ _ _ _ sq) by done. simpl.
  by destruct g.
Qed.

(** An accepted click allocates the next board and makes it the last entry
    of the history, after the entries up to the cursor. *)
Lemma click_accepted :
  truthy (array_get sq i) = false →
  calculateWinner sq = VNull →
  click g i = Some
    {| heap := heap g ++ [array_set sq i (VStr (mark_of_parity (currentMove g)))];
       history := take (currentMove g + 1) (history g) ++ [length (heap g)];
       currentMove := currentMove g + 1 |}.
Proof.
  intros Hempty Hnowin. pose proof current_in_range as Hrange.
  apply board_at_Some in Hcurrent as (l & Hl & Hsq).
  unfold click, currentSquares. rewrite Hl. simpl.
  rewrite (handleClick_accepted _ _ _ _ sq) by done. simpl.
  unfold handlePlay, slice_to. rewrite xIsNext_mark. f_equal. f_equal.
  rewrite length_app, length_take. simpl. lia.
Qed.

End Click.

(** C3. When the history has at least [C + 1] entries, [C] being the cursor,
    and the click on square [i] is accepted, the click succeeds and
    afterwards the history has [C + 2] entries, the cursor is [C + 1], the
    entries [0 .. C] are the same boards as before, and no entry is left at
    index [C + 2] or beyond. *)
Theorem accepted_click_truncates (g : game) (i : nat) :
  currentMove g + 1 ≤ length (history g) →
  accepted g i →
  ∃ g',
    click g i = Some g'
    ∧ length (history g') = currentMove g + 2
    ∧ currentMove g' = currentMove g + 1
    ∧ (∀ k, k ≤ currentMove g →
         history g' !! k = history g !! k
         ∧ ∀ b, board_at g k = Some b → board_at g' k = Some b)
    ∧ (∀ k, currentMove g + 2 ≤ k → history g' !! k = None).
Proof.
  intros Hlen (sq & Hcurrent & Hempty & Hnowin).
  eexists. split; [by apply (click_accepted g i sq)|]. simpl.
  assert (length (take (currentMove g + 1) (history g)) = currentMove g + 1)
    as Htake by (rewrite length_take; lia).
  split; [rewrite length_app, Htake; simpl; lia|].
  split; [done|].
  split.
  - intros k Hk.
    assert (∀ h : list loc,
              (take (currentMove g + 1) (history g) ++ h) !! k = history g !! k)
      as Hprefix.
    { intros h. rewrite lookup_app_l by lia. apply lookup_take_lt. lia. }
    split; [apply Hprefix|].
    intros b (l & Hl & Hb)%board_at_Some. apply board_at_Some. exists l. simpl.
    split; [by rewrite Hprefix|]. by apply store_lookup_alloc.
  - intros k Hk. apply lookup_ge_None_2. rewrite length_app, Htake. simpl. lia.
Qed.

Lemma accepted_two_moves_game : accepted two_moves_game 1.
Proof. exists (default [] (board_at two_moves_game 2)). by vm_compute. Defined.

Lemma accepted_click_truncates_witness :
  ∃ g',
    click (jumpTo won_game 2) 5 = Some g'
    ∧ length (history g') = 4
    ∧ currentMove g' = 3
    ∧ (∀ k, k ≤ 2 →
         history g' !! k = history won_game !! k
         ∧ ∀ b, board_at (jumpTo won_game 2) k = Some b → board_at g' k = Some b)
    ∧ (∀ k, 4 ≤ k → history g' !! k = None).
Proof.
  apply (accepted_click_truncates (jumpTo won_game 2) 5).
  - simpl. lia.
  - exists (default [] (board_at won_game 2)). by vm_compute.
Defined.

(** C4. When cell [i] of the current board is occupied, or the current board
    has a winner, a click on square [i] returns normally and leaves the
    state, history and cursor included, exactly as it was. *)
Theorem rejected_click_is_noop (g : game) (i : nat) (sq : list value) :
  board_at g (currentMove g) = Some sq →
  occupied (array_get sq i) ∨ calculateWinner sq ≠ VNull →
  click g i = Some g.
Proof.
  intros Hcurrent Hrej. apply (click_rejected g i sq Hcurrent).
  apply orb_true_iff. destruct Hrej as [Hocc|Hwon]; [by left|right].
  by destruct (calculateWinner_null_or_mark sq).
Qed.

Lemma rejected_click_is_noop_witness :
  click won_game 5 = Some won_game ∧ click two_moves_game 4 = Some two_moves_game.
Proof.
  split.
  - apply (rejected_click_is_noop won_game 5 (default [] (board_at won_game 5)));
      [reflexivity|by right].
  - apply (rejected_click_is_noop two_moves_game 4
             (default [] (board_at two_moves_game 2)));
      [reflexivity|by left].
Defined.

(** C5. For a valid index [k], [jumpTo(k)] leaves the history and its boards
    as they are and sets the cursor to [k]; the current board read right
    after is the board at entry [k]. *)
Theorem jumpTo_roundtrip (g : game) (k : nat) :
  k < length (history g) →
  history (jumpTo g k) = history g
  ∧ heap (jumpTo g k) = heap g
  ∧ currentMove (jumpTo g k) = k
  ∧ currentSquares (jumpTo g k) = history g !! k
  ∧ is_Some (currentSquares (jumpTo g k))
  ∧ board_at (jumpTo g k) (currentMove (jumpTo g k)) = board_at g k.
Proof.
  intros Hk. repeat split. by apply lookup_lt_is_Some_2.
Qed.

Lemma jumpTo_roundtrip_witness :
  history (jumpTo won_game 2) = history won_game
  ∧ heap (jumpTo won_game 2) = heap won_game
  ∧ currentMove (jumpTo won_game 2) = 2
  ∧ currentSquares (jumpTo won_game 2) = history won_game !! 2
  ∧ is_Some (currentSquares (jumpTo won_game 2))
  ∧ board_at (jumpTo won_game 2) (currentMove (jumpTo won_game 2)) = board_at won_game 2.
Proof. apply (jumpTo_roundtrip won_game 2). simpl. lia. Defined.

(** C10. [jumpTo] sets the cursor to any target without a range check and
    leaves the history alone; the current board lookup that follows finds an
    entry exactly when the target is below the length of the history, and
    finds none otherwise, in which case no click is possible. *)
Theorem jumpTo_unchecked (g : game) (t : nat) :
  currentMove (jumpTo g t) = t
  ∧ history (jumpTo g t) = history g
  ∧ (is_Some (currentSquares (jumpTo g t)) ↔ t < length (history g))
  ∧ (currentSquares (jumpTo g t) = None ↔ length (history g) ≤ t)
  ∧ (currentSquares (jumpTo g t) = None → ∀ i, click (jumpTo g t) i = None).
Proof.
  split; [done|]. split; [done|].
  split; [apply lookup_lt_is_Some|].
  split; [apply lookup_ge_None|].
  intros Hnone i. unfold click. by rewrite Hnone.
Qed.

(** ** Reachable states *)

Lemma counted_initial : counted initial.
Proof.
  intros k l Hk. destruct k as [|k]; [|done].
  injection Hk as <-. by exists (array_fill 9 VNull).
Qed.

Lemma counted_jumpTo (g : game) (t : nat) : counted g → counted (jumpTo g t).
Proof. done. Qed.

Lemma counted_click (g : game) (i : nat) (g' : game) :
  counted g → click g i = Some g' → counted g'.
Proof.
  intros Hg Hclick.
  destruct (currentSquares g) as [l0|] eqn:Hl0;
    [|unfold click in Hclick; by rewrite Hl0 in Hclick].
  destruct (Hg _ _ Hl0) as (sq & Hsq & Hmarks).
  assert (board_at g (currentMove g) = Some sq) as Hcurrent.
  { apply board_at_Some. by exists l0. }
  destruct (truthy (array_get sq i) || truthy (calculateWinner sq)) eqn:Hrej.
  - rewrite (click_rejected g i sq) in Hclick by done. by injection Hclick as <-.
  - apply orb_false_iff in Hrej as [Hempty Hnowin].
    assert (calculateWinner sq = VNull) as Hnull.
    { destruct (calculateWinner_null_or_mark sq) as [?|Hocc]; [done|].
      unfold occupied in Hocc. congruence. }
    rewrite (click_accepted g i sq) in Hclick by done.
    injection Hclick as <-. intros k l Hk. simpl in *.
    pose proof (current_in_range g sq Hcurrent) as Hrange.
    assert (length (take (currentMove g + 1) (history g)) = currentMove g + 1)
      as Htake by (rewrite length_take; lia).
    destruct (decide (k < currentMove g + 1)) as [Hold|Hnew].
    + rewrite lookup_app_l, lookup_take_lt in Hk by lia.
      destruct (Hg _ _ Hk) as (b & Hb & Hcount).
      exists b. split; [by apply store_lookup_alloc|done].
    + rewrite lookup_app_r in Hk by lia.
      rewrite Htake in Hk.
      destruct (k - (currentMove g + 1)) as [|d] eqn:Hd; [|done].
      injection Hk as <-.
      eexists. split; [apply store_lookup_fresh|].
      rewrite marks_placed_array_set; [lia|done|].
      unfold mark_of_parity. by destruct (Nat.even (currentMove g)).
Qed.

Lemma reachable_counted (g : game) : reachable g → counted g.
Proof.
  induction 1 as [|g i g' _ IH Hclick|g t _ IH].
  - apply counted_initial.
  - by apply (counted_click g i g').
  - by apply counted_jumpTo.
Qed.

Lemma reachable_clicks (g : game) (moves : list nat) (g' : game) :
  reachable g → clicks g moves = Some g' → reachable g'.
Proof.
  unfold clicks. revert g. induction moves as [|i moves IH]; intros g Hg Hrun.
  - simpl in Hrun. by injection Hrun as <-.
  - simpl in Hrun. destruct (click g i) as [g1|] eqn:Hclick.
    + apply (IH g1); [by apply (reachable_click g i)|done].
    + exfalso. clear -Hrun. induction moves as [|j moves IHm]; [done|].
      by apply IHm.
Qed.

Lemma reachable_won_game : reachable won_game.
Proof.
  apply (reachable_clicks initial [0; 4; 1; 3; 2]); [constructor|reflexivity].
Qed.

Lemma reachable_two_moves_game : reachable two_moves_game.
Proof.
  apply (reachable_clicks initial [0; 4]); [constructor|reflexivity].
Qed.

(** C6. In every state reached from the initial one by clicks and jumps, the
    board at index [k] of the history carries exactly [k] marks, for every
    index [k] of the history. *)
Theorem history_entry_counts_marks (g : game) :
  reachable g →
  ∀ k, k < length (history g) →
    ∃ sq, board_at g k = Some sq ∧ marks_placed sq = k.
Proof.
  intros Hg k Hk. apply reachable_counted in Hg.
  destruct (lookup_lt_is_Some_2 _ _ Hk) as [l Hl].
  destruct (Hg _ _ Hl) as (sq & Hsq & Hcount).
  exists sq. split; [|done]. apply board_at_Some. by exists l.
Qed.

Lemma history_entry_counts_marks_witness :
  reachable won_game
  ∧ ∀ k, k < length (history won_game) →
      ∃ sq, board_at won_game k = Some sq ∧ marks_placed sq = k.
Proof.
  split; [exact reachable_won_game|].
  exact (history_entry_counts_marks won_game reachable_won_game).
Defined.

(** C7. In every reachable state an accepted click succeeds and places the
    mark given by the parity of the cursor, X when it is even and O when it is
    odd; the cursor is the number of marks already on the current board, and
    [xIsNext] is a function of the cursor alone. *)
Theorem placed_mark_follows_cursor_parity (g : game) (i : nat) :
  reachable g →
  accepted g i →
  ∃ g' sq sq',
    click g i = Some g'
    ∧ board_at g (currentMove g) = Some sq
    ∧ board_at g' (currentMove g') = Some sq'
    ∧ marks_placed sq = currentMove g
    ∧ xIsNext g = Nat.even (currentMove g)
    ∧ array_get sq' i = VStr (if Nat.even (currentMove g) then "X" else "O")
    ∧ (∀ j, j ≠ i → array_get sq' j = array_get sq j).
Proof.
  intros Hg (sq & Hcurrent & Hempty & Hnowin).
  pose proof (current_in_range g sq Hcurrent) as Hrange.
  assert (marks_placed sq = currentMove g) as Hcount.
  { pose proof Hcurrent as (l & Hl & Hsq)%board_at_Some.
    destruct (reachable_counted g Hg _ _ Hl) as (sq0 & Hsq0 & Hcount).
    congruence. }
  eexists. exists sq. eexists.
  split; [by apply (click_accepted g i sq)|].
  split; [done|].
  split.
  { apply board_at_Some. exists (length (heap g)). simpl. split.
    - apply list_lookup_middle. rewrite length_take. lia.
    - apply store_lookup_fresh. }
  split; [done|].
  split; [apply xIsNext_even|].
  split; [apply array_get_set_eq|].
  intros j Hj. by apply array_get_set_ne.
Qed.

Lemma placed_mark_follows_cursor_parity_witness :
  ∃ g' sq sq',
    click two_moves_game 1 = Some g'
    ∧ board_at two_moves_game 2 = Some sq
    ∧ board_at g' (currentMove g') = Some sq'
    ∧ marks_placed sq = 2
    ∧ xIsNext two_moves_game = true
    ∧ array_get sq' 1 = VStr "X"
    ∧ (∀ j, j ≠ 1 → array_get sq' j = array_get sq j).
Proof.
  apply (placed_mark_follows_cursor_parity two_moves_game 1).
  - exact reachable_two_moves_game.
  - exact accepted_two_moves_game.
Defined.

(** ** The status line *)

Lemma status_winner (xn : bool) (sq : list value) (m : string) :
  calculateWinner sq = VStr m → status xn sq = "Winner: " +:+ m.
Proof.
  intros Hm. unfold status.
  destruct (calculateWinner_null_or_mark sq) as [Hnull|Hocc]; [congruence|].
  unfold occupied in Hocc. by rewrite Hocc, Hm.
Qed.

Lemma status_next (xn : bool) (sq : list value) :
  calculateWinner sq = VNull →
  status xn sq = "Next player: " +:+ (if xn then "X" else "O").
Proof. intros Hnull. unfold status. by rewrite Hnull. Qed.

(** C9, with the literals of the source.  The status line of the rendered
    game is ["Winner: "] followed by the mark when [calculateWinner] of the
    current board returns a mark, and otherwise ["Next player: "] followed by
    the mark of the cursor's parity; [calculateWinner] returns nothing else
    than a mark or [null]. *)
Theorem status_derivation (g : game) (sq : list value) :
  board_at g (currentMove g) = Some sq →
  (∀ m, calculateWinner sq = VStr m →
     game_status g = Some ("Winner: " +:+ m))
  ∧ (calculateWinner sq = VNull →
     game_status g =
       Some ("Next player: " +:+ (if Nat.even (currentMove g) then "X" else "O")))
  ∧ (calculateWinner sq = VNull ∨ ∃ m, calculateWinner sq = VStr m).
Proof.
  intros Hcurrent. unfold game_status. rewrite Hcurrent. simpl.
  split; [intros m Hm; by rewrite (status_winner _ sq m)|].
  split; [intros Hnull; by rewrite status_next, xIsNext_even|].
  destruct (calculateWinner_null_or_mark sq) as [Hnull|Hocc]; [by left|right].
  apply truthy_string in Hocc as (m & Hm & _). by exists m.
Qed.

Lemma status_derivation_witness :
  game_status won_game = Some "Winner: X"
  ∧ game_status two_moves_game = Some "Next player: X"
  ∧ game_status (jumpTo won_game 1) = Some "Next player: O".
Proof.
  split; [|split].
  - apply (status_derivation won_game (default [] (board_at won_game 5)));
      reflexivity.
  - apply (status_derivation two_moves_game (default [] (board_at two_moves_game 2)));
      reflexivity.
  - apply (status_derivation (jumpTo won_game 1) (default [] (board_at won_game 1)));
      reflexivity.
Defined.

(** The status line does not carry the announcements ["winner: "] and
    ["next to move: "].  On the won board of the scenario [calculateWinner]
    returns ["X"] and the status is ["Winner: X"], not ["winner: X"]; after
    two moves [calculateWinner] returns [null], the cursor is even and the
    status is ["Next player: X"], not ["next to move: X"]. *)
Lemma status_derivation_counterexample :
  (board_at won_game (currentMove won_game) = Some (default [] (board_at won_game 5))
   ∧ calculateWinner (default [] (board_at won_game 5)) = VStr "X"
   ∧ game_status won_game = Some "Winner: X"
   ∧ game_status won_game ≠ Some ("winner: " +:+ "X"))
  ∧ (board_at two_moves_game (currentMove two_moves_game)
       = Some (default [] (board_at two_moves_game 2))
     ∧ calculateWinner (default [] (board_at two_moves_game 2)) = VNull
     ∧ Nat.even (currentMove two_moves_game) = true
     ∧ game_status two_moves_game = Some "Next player: X"
     ∧ game_status two_moves_game ≠ Some ("next to move: " +:+ "X")).
Proof. repeat split; discriminate. Qed.

(** ** The scenario of the specification *)

Example scenario_top_row :
  clicks initial [0; 4; 1; 3; 2] = Some won_game
  ∧ (sq ← board_at won_game 5; Some (calculateWinner sq)) = Some mX
  ∧ game_status won_game = Some "Winner: X"
  ∧ length (history won_game) = 6
  ∧ click won_game 5 = Some won_game.
Proof. repeat split. Qed.

(** After jumping back to move 2 of that game, square 4 already holds the O
    of move 2, so a click on it is rejected; a click on the free square 5
    is accepted and leaves four entries. *)
Example scenario_jump_back :
  click (jumpTo won_game 2) 4 = Some (jumpTo won_game 2)
  ∧ (g ← click (jumpTo won_game 2) 5; Some (length (history g), currentMove g))
    = Some (4, 3).
Proof. repeat split. Qed.
Example description_examples :
  description 0 = "Go to game start" ∧ description 3 = "Go to move #3" ∧ description 12 = "Go to move #12".
Proof. repeat split. Qed.

(** ** calculateWinner, further properties *)

Lemma scan_lines_mark (squares : list value) (ls : list (nat * nat * nat)) :
  scan_lines squares ls ≠ VNull →
  ∃ l, l ∈ ls ∧ completed squares l ∧ scan_lines squares ls = array_get squares l.1.1.
Proof.
  induction ls as [|[[a b] c] rest IH]; intros Hres; [done|].
  cbn [scan_lines] in *. destruct (line_wins squares (a, b, c)) eqn:Hw.
  - exists (a, b, c). split; [left|]. split; [by apply line_wins_completed|done].
  - destruct (IH Hres) as (l & Hin & Hl & Heq). exists l. split; [by right|done].
Qed.

Lemma scan_lines_null (squares : list value) (ls : list (nat * nat * nat)) :
  scan_lines squares ls = VNull → ∀ l, l ∈ ls → ¬ completed squares l.
Proof.
  induction ls as [|[[a b] c] rest IH]; intros Hres l Hin.
  - by apply elem_of_nil in Hin.
  - cbn [scan_lines] in Hres. destruct (line_wins squares (a, b, c)) eqn:Hw.
    + apply line_wins_completed in Hw. destruct Hw as (Hocc & _).
      simpl in Hocc. unfold occupied in Hocc. rewrite Hres in Hocc. done.
    + apply elem_of_cons in Hin as [->|Hin].
      * by apply line_wins_not_completed.
      * by apply IH.
Qed.

(** X1. [calculateWinner] looks at the cells 0 to 8 only: two arrays that
    agree there get the same result, whatever else they hold. *)
Theorem calculateWinner_reads_nine_cells (a b : list value) :
  (∀ j, j < 9 → array_get a j = array_get b j) →
  calculateWinner a = calculateWinner b.
Proof.
  intros Hagree. unfold calculateWinner, lines, scan_lines, line_wins.
  by rewrite !Hagree by lia.
Qed.

Lemma calculateWinner_reads_nine_cells_witness :
  calculateWinner (two_rows_board ++ [mO; mO; mO]) = calculateWinner two_rows_board.
Proof.
  apply (calculateWinner_reads_nine_cells (two_rows_board ++ [mO; mO; mO]) two_rows_board).
  intros j Hj.
  destruct j as [|[|[|[|[|[|[|[|[|j]]]]]]]]]; [reflexivity..|lia].
Defined.

(** ** The boards of the history across a click *)

(** A click that returns either changed nothing or was accepted. *)
Lemma click_cases (g : game) (i : nat) (g' : game) :
  click g i = Some g' →
  g' = g
  ∨ ∃ sq, board_at g (currentMove g) = Some sq
      ∧ truthy (array_get sq i) = false
      ∧ calculateWinner sq = VNull
      ∧ g' = {| heap := heap g ++ [array_set sq i (VStr (mark_of_parity (currentMove g)))];
                history := take (currentMove g + 1) (history g) ++ [length (heap g)];
                currentMove := currentMove g + 1 |}.
Proof.
  intros Hclick.
  destruct (currentSquares g) as [l0|] eqn:Hl0;
    [|unfold click in Hclick; by rewrite Hl0 in Hclick].
  destruct (heap g !! l0) as [sq|] eqn:Hsq.
  2:{ unfold click, handleClick in Hclick. rewrite Hl0 in Hclick. simpl in Hclick.
      by rewrite Hsq in Hclick. }
  assert (board_at g (currentMove g) = Some sq) as Hcurrent.
  { apply board_at_Some. by exists l0. }
  destruct (truthy (array_get sq i) || truthy (calculateWinner sq)) eqn:Hrej.
  - left. rewrite (click_rejected g i sq) in Hclick by done. by injection Hclick.
  - right. apply orb_false_iff in Hrej as [Hempty Hnowin].
    assert (calculateWinner sq = VNull) as Hnull.
    { destruct (calculateWinner_null_or_mark sq) as [?|Hocc]; [done|].
      unfold occupied in Hocc. congruence. }
    rewrite (click_accepted g i sq) in Hclick by done.
    exists sq. by injection Hclick.
Qed.

Section AcceptedClick.

Variables (g : game) (new : list value).
Hypothesis Hvalid : ∀ k l, history g !! k = Some l → l < length (heap g).
Hypothesis Hrange : currentMove g < length (history g).

Lemma accepted_board_at_old (k : nat) :
  k ≤ currentMove g →
  board_at
    {| heap := heap g ++ [new];
       history := take (currentMove g + 1) (history g) ++ [length (heap g)];
       currentMove := currentMove g + 1 |} k
  = board_at g k.
Proof.
  intros Hk. unfold board_at. simpl.
  rewrite lookup_app_l by (rewrite length_take; lia).
  rewrite lookup_take_lt by lia.
  destruct (history g !! k) as [l|] eqn:Hl; [|done]. simpl.
  apply lookup_app_l. by apply (Hvalid k).
Qed.

Lemma accepted_board_at_new :
  board_at
    {| heap := heap g ++ [new];
       history := take (currentMove g + 1) (history g) ++ [length (heap g)];
       currentMove := currentMove g + 1 |}
    (currentMove g + 1)
  = Some new.
Proof.
  apply board_at_Some. exists (length (heap g)). simpl. split.
  - apply list_lookup_middle. rewrite length_take. lia.
  - by apply list_lookup_middle.
Qed.

Lemma accepted_board_at_beyond (k : nat) :
  currentMove g + 1 < k →
  board_at
    {| heap := heap g ++ [new];
       history := take (currentMove g + 1) (history g) ++ [length (heap g)];
       currentMove := currentMove g + 1 |} k
  = None.
Proof.
  intros Hk. unfold board_at. simpl.
  rewrite lookup_ge_None_2; [done|].
  rewrite length_app, length_take. simpl. lia.
Qed.

End AcceptedClick.

Lemma counted_valid (g : game) :
  counted g → ∀ k l, history g !! k = Some l → l < length (heap g).
Proof.
  intros Hg k l Hl. destruct (Hg k l Hl) as (sq & Hsq & _).
  by apply lookup_lt_Some in Hsq.
Qed.

(** ** The history as a chain of moves *)

Lemma history_chain_initial (ok : nat → Prop) : history_chain ok initial.
Proof. split; [done|]. intros k sq' Hk. by destruct k. Qed.

Lemma history_chain_jumpTo (ok : nat → Prop) (g : game) (t : nat) :
  history_chain ok g → history_chain ok (jumpTo g t).
Proof. done. Qed.

Lemma history_chain_click (ok : nat → Prop) (g : game) (i : nat) (g' : game) :
  counted g → ok i →
  history_chain ok g → click g i = Some g' → history_chain ok g'.
Proof.
  intros Hcounted Hi [Hzero Hchain] Hclick.
  destruct (click_cases g i g' Hclick)
    as [->|(sq & Hcurrent & Hempty & Hnowin & ->)]; [done|].
  pose proof (counted_valid g Hcounted) as Hvalid.
  pose proof (current_in_range g sq Hcurrent) as Hrange.
  split.
  - rewrite accepted_board_at_old by (done || lia). done.
  - intros k sq' Hk.
    destruct (decide (S k ≤ currentMove g)) as [Hold|Hnew].
    + rewrite accepted_board_at_old in Hk by done.
      destruct (Hchain k sq' Hk) as (sq0 & j & Hj & Hsq0 & Hrest).
      exists sq0, j. split; [done|].
      rewrite accepted_board_at_old by (done || lia). done.
    + destruct (decide (S k = currentMove g + 1)) as [Heq|Hne].
      * rewrite Heq, accepted_board_at_new in Hk by done.
        injection Hk as <-. assert (k = currentMove g) as -> by lia.
        exists sq, i. split; [done|].
        rewrite accepted_board_at_old by (done || lia). done.
      * rewrite accepted_board_at_beyond in Hk by lia. done.
Qed.

Lemma reachable_chain (g : game) : reachable g → history_chain (λ _, True) g.
Proof.
  induction 1 as [|g i g' Hg IH Hclick|g t _ IH].
  - apply history_chain_initial.
  - apply (history_chain_click _ g i g'); [by apply reachable_counted|done..].
  - by apply history_chain_jumpTo.
Qed.

(** Induction along the chain: a property of boards that holds of the empty
    board and is kept by every move holds of every entry. *)
Lemma history_chain_boards (ok : nat → Prop) (Q : nat → list value → Prop) (g : game) :
  history_chain ok g →
  Q 0 (array_fill 9 VNull) →
  (∀ k sq i, ok i → Q k sq →
     truthy (array_get sq i) = false → calculateWinner sq = VNull →
     Q (S k) (array_set sq i (VStr (mark_of_parity k)))) →
  ∀ k sq, board_at g k = Some sq → Q k sq.
Proof.
  intros [Hzero Hchain] Hbase Hstep k.
  induction k as [|k IH]; intros sq Hsq.
  - rewrite Hzero in Hsq. by injection Hsq as <-.
  - destruct (Hchain k sq Hsq) as (sq0 & i & Hi & Hsq0 & Hempty & Hnowin & ->).
    apply Hstep; [done| |done|done]. by apply IH.
Qed.

(** X2. In every reachable state the history is a chain of moves: entry 0
    is the empty board of nine [null]s, and every later entry is the entry
    before it, which had no winner, with the mark of that move's parity
    written into one cell that was empty. *)
Theorem history_entries_chain (g : game) :
  reachable g →
  board_at g 0 = Some (array_fill 9 VNull)
  ∧ ∀ k sq', board_at g (S k) = Some sq' →
      ∃ sq i,
        board_at g k = Some sq
        ∧ truthy (array_get sq i) = false
        ∧ calculateWinner sq = VNull
        ∧ sq' = array_set sq i (VStr (mark_of_parity k)).
Proof.
  intros Hg. destruct (reachable_chain g Hg) as [Hzero Hchain].
  split; [done|]. intros k sq' Hk.
  destruct (Hchain k sq' Hk) as (sq & i & _ & Hrest). by exists sq, i.
Qed.

Lemma history_entries_chain_witness :
  reachable won_game
  ∧ board_at won_game 0 = Some (array_fill 9 VNull)
  ∧ ∀ k sq', board_at won_game (S k) = Some sq' →
      ∃ sq i,
        board_at won_game k = Some sq
        ∧ truthy (array_get sq i) = false
        ∧ calculateWinner sq = VNull
        ∧ sq' = array_set sq i (VStr (mark_of_parity k)).
Proof.
  split; [exact reachable_won_game|].
  exact (history_entries_chain won_game reachable_won_game).
Defined.

(** ** Who wins, and when *)

(** A line completed by a move holds the mark of that move. *)
Lemma completed_by_move (sq : list value) (i : nat) (m : string) (l : nat * nat * nat) :
  ¬ completed sq l →
  completed (array_set sq i (VStr m)) l →
  array_get (array_set sq i (VStr m)) l.1.1 = VStr m.
Proof.
  destruct l as [[a b] c]. unfold completed. simpl.
  intros Hbefore (Hocc & Hab & Hac).
  destruct (decide (a = i)) as [->|Ha]; [apply array_get_set_eq|].
  destruct (decide (b = i)) as [->|Hb]; [by rewrite Hab, array_get_set_eq|].
  destruct (decide (c = i)) as [->|Hc]; [by rewrite Hac, array_get_set_eq|].
  rewrite (array_get_set_ne sq i (VStr m) a Ha) in Hocc, Hab, Hac.
  rewrite (array_get_set_ne sq i (VStr m) b Hb) in Hab.
  rewrite (array_get_set_ne sq i (VStr m) c Hc) in Hac.
  by destruct Hbefore.
Qed.

Lemma calculateWinner_completed (sq : list value) :
  calculateWinner sq ≠ VNull →
  ∃ l, l ∈ lines ∧ completed sq l ∧ calculateWinner sq = array_get sq l.1.1.
Proof. apply scan_lines_mark. Qed.

Lemma calculateWinner_null_not_completed (sq : list value) (l : nat * nat * nat) :
  calculateWinner sq = VNull → l ∈ lines → ¬ completed sq l.
Proof. intros Hnull. by apply scan_lines_null. Qed.

Lemma empty_board_not_completed (l : nat * nat * nat) :
  l ∈ lines → ¬ completed (array_fill 9 VNull) l.
Proof. by apply calculateWinner_null_not_completed. Qed.

Lemma reachable_completed_mark (g : game) (k : nat) (sq : list value) (l : nat * nat * nat) :
  reachable g → board_at g k = Some sq → l ∈ lines → completed sq l →
  ∃ k', k = S k' ∧ array_get sq l.1.1 = VStr (mark_of_parity k').
Proof.
  intros Hg Hsq Hin Hl. destruct (reachable_chain g Hg) as [Hzero Hchain].
  destruct k as [|k].
  - rewrite Hzero in Hsq. injection Hsq as <-.
    by destruct (empty_board_not_completed l).
  - destruct (Hchain k sq Hsq) as (sq0 & i & _ & _ & _ & Hnowin & ->).
    exists k. split; [done|]. apply completed_by_move; [|done].
    by apply calculateWinner_null_not_completed.
Qed.

Lemma reachable_winner (g : game) (k : nat) (sq : list value) :
  reachable g → board_at g k = Some sq →
  calculateWinner sq = VNull
  ∨ ∃ k', k = S k' ∧ calculateWinner sq = VStr (mark_of_parity k').
Proof.
  intros Hg Hsq.
  destruct (calculateWinner_null_or_mark sq) as [Hnull|Hocc]; [by left|right].
  assert (calculateWinner sq ≠ VNull) as Hwon.
  { intros Hnull. unfold occupied in Hocc. by rewrite Hnull in Hocc. }
  destruct (calculateWinner_completed sq Hwon) as (l & Hin & Hl & ->).
  by apply (reachable_completed_mark g k sq l).
Qed.

(** X3. In every reachable state, every completed line of the board at
    entry [k] holds the mark of the player who made move [k]: entry 0 has no
    completed line, and so the winner [calculateWinner] reports, if any, is
    the player who moved last; lines of both marks are never completed
    together. *)
Theorem winner_moved_last (g : game) (k : nat) (sq : list value) :
  reachable g →
  board_at g k = Some sq →
  (∀ l, l ∈ lines → completed sq l →
     ∃ k', k = S k' ∧ array_get sq l.1.1 = VStr (mark_of_parity k'))
  ∧ (calculateWinner sq = VNull
     ∨ ∃ k', k = S k' ∧ calculateWinner sq = VStr (mark_of_parity k')).
Proof.
  intros Hg Hsq. split.
  - intros l. by apply (reachable_completed_mark g k sq l).
  - by apply (reachable_winner g k sq).
Qed.

Lemma winner_moved_last_witness :
  (∀ l, l ∈ lines → completed (default [] (board_at won_game 5)) l →
     ∃ k', 5 = S k'
       ∧ array_get (default [] (board_at won_game 5)) l.1.1 = VStr (mark_of_parity k'))
  ∧ (calculateWinner (default [] (board_at won_game 5)) = VNull
     ∨ ∃ k', 5 = S k'
         ∧ calculateWinner (default [] (board_at won_game 5)) = VStr (mark_of_parity k')).
Proof.
  apply (winner_moved_last won_game 5); [exact reachable_won_game|reflexivity].
Defined.

(** X4. In every reachable state a board with a winner is the last entry of
    the history: no move was ever recorded after a win. *)
Theorem won_board_is_last_entry (g : game) (k : nat) (sq : list value) :
  reachable g →
  board_at g k = Some sq →
  calculateWinner sq ≠ VNull →
  length (history g) = S k.
Proof.
  intros Hg Hsq Hwon.
  destruct (reachable_chain g Hg) as [_ Hchain].
  pose proof (reachable_counted g Hg) as Hcounted.
  pose proof Hsq as (l & Hl & _)%board_at_Some.
  apply lookup_lt_Some in Hl.
  destruct (history g !! S k) as [l'|] eqn:Hnext.
  - destruct (Hcounted _ _ Hnext) as (sq' & Hsq' & _).
    assert (board_at g (S k) = Some sq') as Hk by (apply board_at_Some; by exists l').
    destruct (Hchain k sq' Hk) as (sq0 & i & _ & Hsq0 & _ & Hnowin & _).
    congruence.
  - apply lookup_ge_None in Hnext. lia.
Qed.

Lemma won_board_is_last_entry_witness : length (history won_game) = 6.
Proof.
  apply (won_board_is_last_entry won_game 5 (default [] (board_at won_game 5)));
    [exact reachable_won_game|reflexivity|by vm_compute].
Defined.

(** ** Counting cells *)

Section Weights.

(** A weight on cells that ignores holes and cells past the end. *)
Variable f : value → nat.
Hypothesis f_undefined : f VUndefined = 0.

Lemma weight_holes (n : nat) : sum_list_with f (replicate n VUndefined) = 0.
Proof. induction n as [|n IH]; [done|]. simpl. by rewrite f_undefined, IH. Qed.

Lemma weight_insert (a : list value) (i : nat) (v : value) :
  i < length a →
  f (array_get a i) = 0 →
  sum_list_with f (<[i:=v]> a) = sum_list_with f a + f v.
Proof.
  revert i. induction a as [|w a IH]; intros i Hi Hzero; simpl in Hi; [lia|].
  destruct i as [|i]; simpl.
  - change (array_get (w :: a) 0) with w in Hzero. lia.
  - rewrite IH; [lia|lia|done].
Qed.

(** Writing into a cell of weight 0 adds the weight of what is written. *)
Lemma weight_array_set (a : list value) (i : nat) (v : value) :
  f (array_get a i) = 0 →
  sum_list_with f (array_set a i v) = sum_list_with f a + f v.
Proof.
  intros Hzero. unfold array_set. case_decide as Hi.
  - by apply weight_insert.
  - rewrite !sum_list_with_app, weight_holes. simpl. lia.
Qed.

Lemma weight_one (a : list value) (i : nat) :
  f (array_get a i) ≤ sum_list_with f a.
Proof.
  unfold array_get. destruct (a !! i) as [v|] eqn:Hv; simpl; [|lia].
  apply sum_list_with_in. by apply list_elem_of_lookup_2 in Hv.
Qed.

(** Three cells at different indices weigh no more than the array. *)
Lemma weight_three (a : list value) (i j k : nat) :
  i < j → j < k →
  f (array_get a i) + f (array_get a j) + f (array_get a k) ≤ sum_list_with f a.
Proof.
  intros Hij Hjk.
  assert (sum_list_with f a =
            sum_list_with f (take j a)
            + (sum_list_with f (take (k - j) (drop j a))
               + sum_list_with f (drop (k - j) (drop j a)))) as ->.
  { rewrite <- !sum_list_with_app. by rewrite !take_drop. }
  pose proof (weight_one (take j a) i) as H1.
  pose proof (weight_one (take (k - j) (drop j a)) 0) as H2.
  pose proof (weight_one (drop (k - j) (drop j a)) 0) as H3.
  unfold array_get in *.
  rewrite lookup_take_lt in H1 by lia.
  rewrite lookup_take_lt, lookup_drop in H2 by lia.
  rewrite !lookup_drop in H3.
  replace (j + 0) with j in H2 by lia.
  replace (j + (k - j + 0)) with k in H3 by lia.
  lia.
Qed.

End Weights.

Lemma lines_increasing (l : nat * nat * nat) :
  l ∈ lines → l.1.1 < l.1.2 ∧ l.1.2 < l.2.
Proof.
  intros Hl. unfold lines in Hl.
  repeat (apply elem_of_cons in Hl as [->|Hl]; [simpl; lia|]).
  by apply elem_of_nil in Hl.
Qed.

(** A completed line makes three marks. *)
Lemma completed_three_marks (sq : list value) (l : nat * nat * nat) :
  l ∈ lines → completed sq l → 3 ≤ marks_placed sq.
Proof.
  intros Hin (Hocc & Hab & Hac). destruct (lines_increasing l Hin) as [H12 H23].
  pose proof (weight_three (λ v, if truthy v then 1 else 0) eq_refl sq _ _ _ H12 H23)
    as Hsum.
  simpl in Hsum. rewrite <- Hab, <- Hac in Hsum.
  unfold occupied in Hocc. rewrite Hocc in Hsum. done.
Qed.

Lemma strict_eq_refl (v : value) : strict_eq v v = true.
Proof. by apply strict_eq_true. Qed.

(** A line completed with the mark [m] makes three cells with [m]. *)
Lemma completed_three_of_mark (sq : list value) (l : nat * nat * nat) (m : string) :
  l ∈ lines → completed sq l → array_get sq l.1.1 = VStr m →
  3 ≤ count_mark m sq.
Proof.
  intros Hin (Hocc & Hab & Hac) Hm. destruct (lines_increasing l Hin) as [H12 H23].
  pose proof (weight_three (λ v, if strict_eq v (VStr m) then 1 else 0)
                eq_refl sq _ _ _ H12 H23) as Hsum.
  simpl in Hsum. rewrite <- Hab, <- Hac, Hm, strict_eq_refl in Hsum. done.
Qed.

(** X5. A board with fewer than three marks has no winner, whatever its
    length and contents. *)
Theorem few_marks_no_winner (sq : list value) :
  marks_placed sq < 3 → calculateWinner sq = VNull.
Proof.
  intros Hfew.
  destruct (calculateWinner_null_or_mark sq) as [Hnull|Hocc]; [done|].
  assert (calculateWinner sq ≠ VNull) as Hwon.
  { intros Hnull. unfold occupied in Hocc. by rewrite Hnull in Hocc. }
  destruct (calculateWinner_completed sq Hwon) as (l & Hin & Hl & _).
  pose proof (completed_three_marks sq l Hin Hl). lia.
Qed.

Lemma few_marks_no_winner_witness :
  calculateWinner (default [] (board_at two_moves_game 2)) = VNull.
Proof.
  apply (few_marks_no_winner (default [] (board_at two_moves_game 2))).
  vm_compute. lia.
Defined.

(** Writing the mark [m] into an empty cell adds one cell with [m] and no
    cell with another mark. *)
Lemma count_mark_array_set (m' : string) (sq : list value) (i : nat) (m : string) :
  m' ≠ ""%string →
  truthy (array_get sq i) = false →
  count_mark m' (array_set sq i (VStr m)) =
    count_mark m' sq + (if String.eqb m m' then 1 else 0).
Proof.
  intros Hm' Hempty. unfold count_mark.
  rewrite weight_array_set.
  - done.
  - done.
  - destruct (array_get sq i) as [| |s]; [done|done|]. simpl in *.
    apply negb_false_iff, String.eqb_eq in Hempty. subst s.
    destruct (String.eqb_spec ""%string m') as [Heq|Hne]; [by subst m'|done].
Qed.

Lemma half_even (n : nat) : (2 * n) / 2 = n.
Proof. symmetry. apply (Nat.div_unique _ 2 n 0); lia. Qed.

Lemma half_odd (n : nat) : (2 * n + 1) / 2 = n.
Proof. symmetry. apply (Nat.div_unique _ 2 n 1); lia. Qed.

Lemma reachable_mark_counts (g : game) (k : nat) (sq : list value) :
  reachable g → board_at g k = Some sq →
  count_mark "X" sq = (k + 1) / 2 ∧ count_mark "O" sq = k / 2.
Proof.
  intros Hg. revert k sq.
  apply (history_chain_boards (λ _, True)
           (λ k sq, count_mark "X" sq = (k + 1) / 2 ∧ count_mark "O" sq = k / 2));
    [by apply reachable_chain|done|].
  intros k sq i _ [HX HO] Hempty _.
  rewrite !count_mark_array_set by done. rewrite HX, HO.
  unfold mark_of_parity. destruct (Nat.even k) eqn:Hk.
  - change (String.eqb "X" "X") with true. change (String.eqb "X" "O") with false.
    apply Nat.even_spec in Hk as [n ->].
    replace (S (2 * n) + 1) with (2 * (n + 1)) by lia.
    replace (S (2 * n)) with (2 * n + 1) by lia.
    rewrite !half_even, !half_odd. lia.
  - change (String.eqb "O" "X") with false. change (String.eqb "O" "O") with true.
    assert (Nat.odd k = true) as Hodd by (by rewrite <- Nat.negb_even, Hk).
    apply Nat.odd_spec in Hodd as [n ->].
    replace (2 * n + 1 + 1) with (2 * (n + 1)) by lia.
    replace (S (2 * n + 1) + 1) with (2 * (n + 1) + 1) by lia.
    replace (S (2 * n + 1)) with (2 * (n + 1)) by lia.
    rewrite !half_even, !half_odd. lia.
Qed.

(** X6. In every reachable state the board at entry [k] holds the marks of
    alternating players, X first: [(k + 1) / 2] cells with ["X"] and [k / 2]
    cells with ["O"]. *)
Theorem marks_alternate (g : game) (k : nat) (sq : list value) :
  reachable g →
  board_at g k = Some sq →
  count_mark "X" sq = (k + 1) / 2 ∧ count_mark "O" sq = k / 2.
Proof. apply reachable_mark_counts. Qed.

Lemma marks_alternate_witness :
  count_mark "X" (default [] (board_at won_game 5)) = 3
  ∧ count_mark "O" (default [] (board_at won_game 5)) = 2.
Proof.
  apply (marks_alternate won_game 5); [exact reachable_won_game|reflexivity].
Defined.

Lemma winner_three_of_mark (sq : list value) (m : string) :
  calculateWinner sq = VStr m → 3 ≤ count_mark m sq.
Proof.
  intros Hm.
  assert (calculateWinner sq ≠ VNull) as Hwon by congruence.
  destruct (calculateWinner_completed sq Hwon) as (l & Hin & Hl & Heq).
  apply (completed_three_of_mark sq l m); [done|done|congruence].
Qed.

(** X7. In every reachable state X is reported as winner only at an odd
    entry from the fifth on and O only at an even entry from the sixth on;
    the entries before the fifth have no winner. *)
Theorem winner_needs_three_moves (g : game) (k : nat) (sq : list value) :
  reachable g →
  board_at g k = Some sq →
  (calculateWinner sq = VStr "X" → 5 ≤ k ∧ Nat.odd k = true)
  ∧ (calculateWinner sq = VStr "O" → 6 ≤ k ∧ Nat.even k = true)
  ∧ (k < 5 → calculateWinner sq = VNull).
Proof.
  intros Hg Hsq.
  destruct (reachable_mark_counts g k sq Hg Hsq) as [HX HO].
  assert (calculateWinner sq = VStr "X" → 5 ≤ k ∧ Nat.odd k = true) as HwinX.
  { intros Hm. pose proof (winner_three_of_mark sq _ Hm) as Hthree.
    rewrite HX in Hthree. split.
    - destruct (decide (5 ≤ k)) as [|Hlt]; [done|]. exfalso.
      do 5 (destruct k as [|k]; [vm_compute in Hthree; lia|]). lia.
    - destruct (reachable_winner g k sq Hg Hsq) as [Hnull|(k' & -> & Hm')];
        [congruence|].
      rewrite Nat.odd_succ. unfold mark_of_parity in Hm'.
      destruct (Nat.even k'); [done|congruence]. }
  assert (calculateWinner sq = VStr "O" → 6 ≤ k ∧ Nat.even k = true) as HwinO.
  { intros Hm. pose proof (winner_three_of_mark sq _ Hm) as Hthree.
    rewrite HO in Hthree. split.
    - destruct (decide (6 ≤ k)) as [|Hlt]; [done|]. exfalso.
      do 6 (destruct k as [|k]; [vm_compute in Hthree; lia|]). lia.
    - destruct (reachable_winner g k sq Hg Hsq) as [Hnull|(k' & -> & Hm')];
        [congruence|].
      rewrite Nat.even_succ, <- Nat.negb_even. unfold mark_of_parity in Hm'.
      destruct (Nat.even k'); [congruence|done]. }
  split; [done|]. split; [done|].
  intros Hk.
  destruct (reachable_winner g k sq Hg Hsq) as [Hnull|(k' & Hk' & Hm)]; [done|].
  unfold mark_of_parity in Hm. destruct (Nat.even k').
  - destruct (HwinX Hm). lia.
  - destruct (HwinO Hm). lia.
Qed.

Lemma winner_needs_three_moves_witness :
  (calculateWinner (default [] (board_at won_game 5)) = VStr "X" →
     5 ≤ 5 ∧ Nat.odd 5 = true)
  ∧ (calculateWinner (default [] (board_at won_game 5)) = VStr "O" →
     6 ≤ 5 ∧ Nat.even 5 = true)
  ∧ (5 < 5 → calculateWinner (default [] (board_at won_game 5)) = VNull).
Proof.
  apply (winner_needs_three_moves won_game 5); [exact reachable_won_game|reflexivity].
Defined.

(** ** The references of the history *)

Lemma reachable_distinct (g : game) : reachable g → NoDup (history g).
Proof.
  induction 1 as [|g i g' Hg IH Hclick|g t _ IH]; [|  |done].
  - apply NoDup_singleton.
  - destruct (click_cases g i g' Hclick)
      as [->|(sq & Hcurrent & Hempty & Hnowin & ->)]; [done|].
    simpl. apply NoDup_app. split; [|split].
    + apply (sublist_NoDup _ (history g)); [done|apply sublist_take].
    + intros l Hl ->%list_elem_of_singleton.
      apply list_elem_of_lookup in Hl as [k Hk].
      apply lookup_take_Some in Hk as [Hk _].
      pose proof (counted_valid g (reachable_counted g Hg) k _ Hk). lia.
    + apply NoDup_singleton.
Qed.

(** X8. In every reachable state the entries of the history refer to
    pairwise different arrays, all of them allocated: no board is shared
    between two entries. *)
Theorem history_boards_not_shared (g : game) :
  reachable g →
  NoDup (history g)
  ∧ (∀ j k l, history g !! j = Some l → history g !! k = Some l → j = k)
  ∧ (∀ k l, history g !! k = Some l → is_Some (heap g !! l)).
Proof.
  intros Hg. pose proof (reachable_distinct g Hg) as Hnodup.
  split; [done|]. split.
  - intros j k l Hj Hk. by apply (NoDup_lookup (history g) j k l).
  - intros k l Hl. apply lookup_lt_is_Some_2.
    by apply (counted_valid g (reachable_counted g Hg) k).
Qed.

Lemma history_boards_not_shared_witness :
  NoDup (history won_game)
  ∧ (∀ j k l, history won_game !! j = Some l → history won_game !! k = Some l → j = k)
  ∧ (∀ k l, history won_game !! k = Some l → is_Some (heap won_game !! l)).
Proof. exact (history_boards_not_shared won_game reachable_won_game). Defined.

(** ** The rendered game *)

Lemma Game_Some (g : game) (v : game_view) :
  Game g = Some v ↔
  ∃ sq, board_at g (currentMove g) = Some sq
        ∧ v = {| game_board := Board (xIsNext g) sq; game_info := moves g |}.
Proof.
  unfold Game. destruct (board_at g (currentMove g)) as [sq|]; simpl.
  - split; [intros [= <-]; by exists sq|]. by intros (sq' & [= <-] & ->).
  - split; [done|]. by intros (sq' & [=] & _).
Qed.

(** The squares [Board] renders call [handleClick] with 0 to 8. *)
Lemma Board_squares (xn : bool) (sq : list value) (s : square_view) :
  s ∈ concat (board_rows (Board xn sq)) →
  onSquareClick s < 9 ∧ shown s = array_get sq (onSquareClick s).
Proof.
  simpl. intros Hs.
  repeat (apply elem_of_cons in Hs as [->|Hs]; [simpl; split; [lia|done]|]).
  by apply elem_of_nil in Hs.
Qed.

(** The move buttons call [jumpTo] with the indices of the history. *)
Lemma moves_lookup (g : game) (k : nat) :
  moves g !! k =
    (λ _, mkMove k (description k) k) <$> history g !! k.
Proof. unfold moves. by rewrite list_lookup_imap. Qed.

Lemma moves_onClick (g : game) (mv : move_view) :
  mv ∈ moves g → onClick mv < length (history g).
Proof.
  intros [k Hk]%list_elem_of_lookup. rewrite moves_lookup in Hk.
  destruct (history g !! k) as [l|] eqn:Hl; [|done].
  injection Hk as <-. simpl. by apply lookup_lt_Some in Hl.
Qed.

Lemma ui_reachable_reachable (g : game) : ui_reachable g → reachable g.
Proof.
  induction 1 as [|g v s g' _ IH _ _ Hclick|g v mv _ IH _ _].
  - apply reachable_initial.
  - by apply (reachable_click g (onSquareClick s)).
  - by apply reachable_jumpTo.
Qed.

Lemma ui_reachable_in_range (g : game) :
  ui_reachable g → currentMove g < length (history g).
Proof.
  induction 1 as [|g v s g' _ IH _ _ Hclick|g v mv _ IH Hv Hmv].
  - simpl. lia.
  - destruct (click_cases g _ g' Hclick) as [->|(sq & _ & _ & _ & ->)]; [done|].
    simpl. rewrite length_app, length_take. simpl. lia.
  - apply Game_Some in Hv as (sq & _ & ->). simpl in *. by apply moves_onClick.
Qed.

Lemma ui_reachable_chain (g : game) :
  ui_reachable g → history_chain (λ i, i < 9) g.
Proof.
  induction 1 as [|g v s g' Hg IH Hv Hs Hclick|g v mv _ IH _ _].
  - apply history_chain_initial.
  - apply (history_chain_click _ g (onSquareClick s) g'); [|  |done|done].
    + by apply reachable_counted, ui_reachable_reachable.
    + apply Game_Some in Hv as (sq & _ & ->). by apply Board_squares in Hs as [? _].
  - by apply history_chain_jumpTo.
Qed.

(** A click on a rendered board returns. *)
Lemma click_returns (g : game) (i : nat) (sq : list value) :
  board_at g (currentMove g) = Some sq → is_Some (click g i).
Proof.
  intros Hcurrent.
  destruct (truthy (array_get sq i) || truthy (calculateWinner sq)) eqn:Hrej.
  - rewrite (click_rejected g i sq) by done. by eexists.
  - apply orb_false_iff in Hrej as [Hempty Hnowin].
    rewrite (click_accepted g i sq); [by eexists|done..|].
    destruct (calculateWinner_null_or_mark sq) as [?|Hocc]; [done|].
    unfold occupied in Hocc. congruence.
Qed.

(** X9. In every state a user can reach through the rendered squares and
    move buttons, the cursor is an index of the history, [Game] renders
    without throwing, and a click on any square returns. *)
Theorem ui_always_renders (g : game) :
  ui_reachable g →
  currentMove g < length (history g)
  ∧ is_Some (Game g)
  ∧ ∀ i, is_Some (click g i).
Proof.
  intros Hg. pose proof (ui_reachable_in_range g Hg) as Hrange.
  split; [done|].
  destruct (lookup_lt_is_Some_2 _ _ Hrange) as [l Hl].
  destruct (reachable_counted g (ui_reachable_reachable g Hg) _ _ Hl)
    as (sq & Hsq & _).
  assert (board_at g (currentMove g) = Some sq) as Hcurrent.
  { apply board_at_Some. by exists l. }
  split.
  - unfold Game. rewrite Hcurrent. by eexists.
  - intros i. by apply (click_returns g i sq).
Qed.

Lemma Board_offers (xn : bool) (sq : list value) (i : nat) :
  i < 9 → Square (array_get sq i) i ∈ concat (board_rows (Board xn sq)).
Proof.
  intros Hi. simpl.
  destruct i as [|[|[|[|[|[|[|[|[|i]]]]]]]]]; [..|lia];
    repeat first [left|right].
Qed.

(** Clicks on squares 0 to 8 that return are clicks a user can make. *)
Lemma ui_reachable_clicks (g : game) (ms : list nat) (g' : game) :
  ui_reachable g → Forall (λ i, i < 9) ms → clicks g ms = Some g' →
  ui_reachable g'.
Proof.
  unfold clicks. revert g. induction ms as [|i ms IH]; intros g Hg Hms Hrun.
  - simpl in Hrun. by injection Hrun as <-.
  - apply Forall_cons in Hms as [Hi Hms]. simpl in Hrun.
    destruct (click g i) as [g1|] eqn:Hclick.
    + apply (IH g1); [|done|done].
      destruct (board_at g (currentMove g)) as [sq|] eqn:Hcurrent.
      * apply (ui_square g {| game_board := Board (xIsNext g) sq; game_info := moves g |}
                 (Square (array_get sq i) i) g1 Hg).
        -- unfold Game. by rewrite Hcurrent.
        -- by apply Board_offers.
        -- done.
      * exfalso. unfold click, currentSquares, handleClick in Hclick.
        unfold board_at in Hcurrent.
        destruct (history g !! currentMove g) as [l|]; [|done]. simpl in *.
        by rewrite Hcurrent in Hclick.
    + exfalso. clear -Hrun. induction ms as [|j ms IHm]; [done|].
      by apply IHm.
Qed.

Lemma ui_two_moves_game : ui_reachable two_moves_game.
Proof.
  apply (ui_reachable_clicks initial [0; 4]); [apply ui_initial| |reflexivity].
  repeat constructor.
Qed.

Lemma ui_always_renders_witness :
  currentMove two_moves_game < length (history two_moves_game)
  ∧ is_Some (Game two_moves_game)
  ∧ ∀ i, is_Some (click two_moves_game i).
Proof. exact (ui_always_renders two_moves_game ui_two_moves_game). Defined.

Lemma cell_value_mark (k : nat) : cell_value (VStr (mark_of_parity k)).
Proof. unfold cell_value, mark_of_parity. destruct (Nat.even k); auto. Qed.

Lemma ui_board_shape (g : game) (k : nat) (sq : list value) :
  ui_reachable g → board_at g k = Some sq →
  length sq = 9 ∧ Forall cell_value sq.
Proof.
  intros Hg. revert k sq.
  apply (history_chain_boards (λ i, i < 9)
           (λ _ sq, length sq = 9 ∧ Forall cell_value sq));
    [by apply ui_reachable_chain| |].
  - split; [done|]. apply Forall_replicate. by left.
  - intros k sq i Hi [Hlen Hcells] _ _.
    unfold array_set. rewrite decide_True by lia.
    split; [by rewrite length_insert|].
    apply Forall_insert; [done|apply cell_value_mark].
Qed.

(** X10. In every state a user can reach, every board of the history has
    exactly nine cells, each [null], ["X"] or ["O"]. *)
Theorem ui_boards_have_nine_cells (g : game) (k : nat) (sq : list value) :
  ui_reachable g →
  board_at g k = Some sq →
  length sq = 9 ∧ ∀ i, i < 9 → cell_value (array_get sq i).
Proof.
  intros Hg Hsq. destruct (ui_board_shape g k sq Hg Hsq) as [Hlen Hcells].
  split; [done|]. intros i Hi.
  destruct (lookup_lt_is_Some_2 sq i) as [v Hv]; [lia|].
  rewrite (array_get_lookup sq i v Hv).
  by apply (Forall_lookup_1 _ _ _ _ Hcells Hv).
Qed.

Lemma ui_boards_have_nine_cells_witness :
  length (default [] (board_at two_moves_game 2)) = 9
  ∧ ∀ i, i < 9 → cell_value (array_get (default [] (board_at two_moves_game 2)) i).
Proof.
  apply (ui_boards_have_nine_cells two_moves_game 2);
    [exact ui_two_moves_game|reflexivity].
Defined.

Lemma marks_placed_le_length (sq : list value) : marks_placed sq ≤ length sq.
Proof.
  induction sq as [|w sq IH]; [done|].
  rewrite marks_placed_cons. simpl. destruct (truthy w); lia.
Qed.

(** On a board with as many marks as cells every cell is occupied. *)
Lemma marks_placed_full (sq : list value) (i : nat) :
  marks_placed sq = length sq → i < length sq → truthy (array_get sq i) = true.
Proof.
  revert i. induction sq as [|w sq IH]; intros i Hfull Hi; simpl in Hi; [lia|].
  rewrite marks_placed_cons in Hfull. simpl in Hfull.
  pose proof (marks_placed_le_length sq) as Hle.
  destruct i as [|i].
  - change (array_get (w :: sq) 0) with w. destruct (truthy w); [done|lia].
  - change (array_get (w :: sq) (S i)) with (array_get sq i).
    apply IH; [destruct (truthy w); lia|lia].
Qed.

(** X11. In every state a user can reach the history has at most ten
    entries: the empty board and at most nine moves. *)
Theorem ui_history_at_most_ten (g : game) :
  ui_reachable g → length (history g) ≤ 10 ∧ currentMove g ≤ 9.
Proof.
  intros Hg. pose proof (ui_reachable_in_range g Hg) as Hrange.
  pose proof (reachable_counted g (ui_reachable_reachable g Hg)) as Hcounted.
  assert (length (history g) ≤ 10) as Hlen; [|lia].
  destruct (decide (length (history g) ≤ 10)) as [|Hmore]; [done|]. exfalso.
  destruct (lookup_lt_is_Some_2 (history g) 10) as [l Hl]; [lia|].
  destruct (Hcounted _ _ Hl) as (sq & Hsq & Hmarks).
  assert (board_at g 10 = Some sq) as Hboard by (apply board_at_Some; by exists l).
  destruct (ui_board_shape g 10 sq Hg Hboard) as [Hnine _].
  pose proof (marks_placed_le_length sq). lia.
Qed.

Lemma ui_history_at_most_ten_witness :
  length (history two_moves_game) ≤ 10 ∧ currentMove two_moves_game ≤ 9.
Proof. exact (ui_history_at_most_ten two_moves_game ui_two_moves_game). Defined.

(** X12. When a user has reached move 9 the board is full: a click on any of
    the nine squares changes nothing, and unless the ninth move won, the
    status line still announces O as the next player. *)
Theorem ui_full_board (g : game) :
  ui_reachable g →
  currentMove g = 9 →
  ∃ sq,
    board_at g 9 = Some sq
    ∧ (∀ i, i < 9 → occupied (array_get sq i))
    ∧ (∀ i, i < 9 → click g i = Some g)
    ∧ (calculateWinner sq = VNull → game_status g = Some "Next player: O").
Proof.
  intros Hg Hnine. pose proof (ui_reachable_in_range g Hg) as Hrange.
  destruct (lookup_lt_is_Some_2 _ _ Hrange) as [l Hl].
  destruct (reachable_counted g (ui_reachable_reachable g Hg) _ _ Hl)
    as (sq & Hsq & Hmarks).
  assert (board_at g (currentMove g) = Some sq) as Hcurrent.
  { apply board_at_Some. by exists l. }
  destruct (ui_board_shape g _ sq Hg Hcurrent) as [Hlen _].
  assert (∀ i, i < 9 → occupied (array_get sq i)) as Hfull.
  { intros i Hi. apply marks_placed_full; lia. }
  exists sq. rewrite <- Hnine at 1. split; [done|]. split; [done|]. split.
  - intros i Hi. apply (click_rejected g i sq Hcurrent).
    apply orb_true_iff. left. by apply Hfull.
  - intros Hnull. unfold game_status. rewrite Hcurrent. simpl.
    rewrite status_next by done. by rewrite xIsNext_even, Hnine.
Qed.

Lemma ui_full_board_witness :
  ∃ sq,
    board_at (default initial (clicks initial [0; 1; 2; 4; 3; 5; 7; 6; 8])) 9 = Some sq
    ∧ (∀ i, i < 9 → occupied (array_get sq i))
    ∧ (∀ i, i < 9 →
         click (default initial (clicks initial [0; 1; 2; 4; 3; 5; 7; 6; 8])) i
         = Some (default initial (clicks initial [0; 1; 2; 4; 3; 5; 7; 6; 8])))
    ∧ (calculateWinner sq = VNull →
         game_status (default initial (clicks initial [0; 1; 2; 4; 3; 5; 7; 6; 8]))
         = Some "Next player: O").
Proof.
  apply (ui_full_board (default initial (clicks initial [0; 1; 2; 4; 3; 5; 7; 6; 8]))).
  - apply (ui_reachable_clicks initial [0; 1; 2; 4; 3; 5; 7; 6; 8]);
      [apply ui_initial|repeat constructor|reflexivity].
  - reflexivity.
Defined.

Example drawn_game_board :
  board_at (default initial (clicks initial [0; 1; 2; 4; 3; 5; 7; 6; 8])) 9
  = Some drawn_board.
Proof. reflexivity. Qed.

(** ** The move list *)

Lemma description_inj (a b : nat) : description a = description b → a = b.
Proof.
  unfold description. intros Hab.
  destruct a as [|a], b as [|b]; simpl in Hab;
    cbv beta iota delta [String.append] in Hab; [done|done|done|].
  injection Hab as Hab. by apply (inj pretty) in Hab.
Qed.

Lemma moves_spelled_out (g : game) :
  moves g = (λ k, mkMove k (description k) k) <$> seq 0 (length (history g)).
Proof. unfold moves. apply imap_seq_0. Qed.

(** X13. [Game] renders one move button per entry of the history, in order:
    the button of entry [k] has key [k], jumps to [k], and reads
    "Go to game start" for entry 0 and "Go to move #k" otherwise.  So every
    jump a button makes is to an index of the history, and no two buttons
    share a key or a text. *)
Theorem moves_match_history (g : game) :
  length (moves g) = length (history g)
  ∧ (∀ k, k < length (history g) →
       moves g !! k = Some (mkMove k (description k) k))
  ∧ (∀ mv, mv ∈ moves g → onClick mv < length (history g))
  ∧ description 0 = "Go to game start"
  ∧ (∀ k, description (S k) = "Go to move #" +:+ pretty (S k))
  ∧ NoDup (key <$> moves g)
  ∧ NoDup (button_text <$> moves g).
Proof.
  split; [apply length_imap|].
  split.
  { intros k Hk. rewrite moves_lookup.
    by destruct (lookup_lt_is_Some_2 _ _ Hk) as [l ->]. }
  split; [apply moves_onClick|].
  split; [done|]. split; [done|].
  rewrite moves_spelled_out, <- !list_fmap_compose. split.
  - apply NoDup_fmap_2; [|apply NoDup_seq]. by intros a b.
  - apply NoDup_fmap_2; [|apply NoDup_seq]. intros a b. apply description_inj.
Qed.

(** ** handleClick past the end of the board *)



(** ** The status line in a game *)

(** X15. In every reachable state with a current board the status line is
    "Next player: " with the mark of the cursor's parity, or "Winner: " with
    the mark of the player who made the move the cursor is at; it is one of
    four texts. *)
Theorem status_names_a_player (g : game) (s : string) :
  reachable g →
  game_status g = Some s →
  (s = "Next player: " +:+ mark_of_parity (currentMove g)
   ∨ ∃ c, currentMove g = S c ∧ s = "Winner: " +:+ mark_of_parity c)
  ∧ s ∈ ["Next player: X"; "Next player: O"; "Winner: X"; "Winner: O"].
Proof.
  intros Hg Hs. unfold game_status in Hs.
  destruct (board_at g (currentMove g)) as [sq|] eqn:Hcurrent; [|done].
  injection Hs as <-.
  destruct (reachable_winner g _ sq Hg Hcurrent) as [Hnull|(c & Hc & Hm)].
  - rewrite status_next, xIsNext_mark by done. split; [by left|].
    unfold mark_of_parity. destruct (Nat.even (currentMove g)); simpl.
    + left.
    + right. left.
  - rewrite (status_winner _ sq _ Hm). split; [right; by exists c|].
    unfold mark_of_parity. destruct (Nat.even c); simpl.
    + do 2 right. left.
    + do 3 right. left.
Qed.

Lemma status_names_a_player_witness :
  ("Winner: X" = "Next player: " +:+ mark_of_parity (currentMove won_game)
   ∨ ∃ c, currentMove won_game = S c ∧ "Winner: X" = "Winner: " +:+ mark_of_parity c)
  ∧ "Winner: X" ∈ ["Next player: X"; "Next player: O"; "Winner: X"; "Winner: O"].
Proof.
  apply (status_names_a_player won_game "Winner: X");
    [exact reachable_won_game|reflexivity].
Defined.

(** ** From one rendering to the next *)

Lemma status_next_no_winner (xn : bool) (sq : list value) (m : string) :
  status xn sq = "Next player: " +:+ m → calculateWinner sq = VNull.
Proof.
  unfold status. intros Hs.
  destruct (calculateWinner_null_or_mark sq) as [Hnull|Hocc]; [done|].
  unfold occupied in Hocc. rewrite Hocc in Hs.
  cbv beta iota delta [String.append] in Hs. done.
Qed.

(** X16. When the status line announces the next player and a square shows
    nothing, a click on that square is accepted: in the next rendering that
    square shows the announced player's mark, every other square shows what
    it showed before, the cursor has advanced by one and the move list ends
    with the button of the new move. *)
Theorem click_on_empty_square_shows_mark (g : game) (v : game_view) (s : square_view) :
  Game g = Some v →
  s ∈ concat (board_rows (game_board v)) →
  shown s = VNull →
  status_line (game_board v) = "Next player: " +:+ mark_of_parity (currentMove g) →
  ∃ g' v',
    click g (onSquareClick s) = Some g'
    ∧ Game g' = Some v'
    ∧ currentMove g' = currentMove g + 1
    ∧ length (game_info v') = currentMove g + 2
    ∧ ∀ t', t' ∈ concat (board_rows (game_board v')) →
        (onSquareClick t' = onSquareClick s →
           shown t' = VStr (mark_of_parity (currentMove g)))
        ∧ (∀ t, t ∈ concat (board_rows (game_board v)) →
             onSquareClick t = onSquareClick t' →
             onSquareClick t' ≠ onSquareClick s →
             shown t' = shown t).
Proof.
  intros (sq & Hcurrent & ->)%Game_Some Hs Hnull Hstatus. simpl in Hs, Hstatus.
  apply (Board_squares (xIsNext g) sq) in Hs as [Hi Hshown].
  apply status_next_no_winner in Hstatus.
  pose proof (current_in_range g sq Hcurrent) as Hrange.
  assert (truthy (array_get sq (onSquareClick s)) = false) as Hempty.
  { by rewrite <- Hshown, Hnull. }
  set (new := array_set sq (onSquareClick s) (VStr (mark_of_parity (currentMove g)))).
  pose proof (accepted_board_at_new g new Hrange) as Hnew.
  set (g' := {| heap := heap g ++ [new];
                history := take (currentMove g + 1) (history g) ++ [length (heap g)];
                currentMove := currentMove g + 1 |}) in *.
  exists g', {| game_board := Board (xIsNext g') new; game_info := moves g' |}.
  split; [by apply (click_accepted g _ sq)|].
  split; [apply Game_Some; by exists new|].
  split; [done|].
  split.
  { simpl. unfold moves. rewrite length_imap. simpl.
    rewrite length_app, length_take. simpl. lia. }
  intros t' [_ Ht']%(Board_squares (xIsNext g') new). rewrite Ht'. split.
  - intros ->. apply array_get_set_eq.
  - intros t [_ Ht]%(Board_squares (xIsNext g) sq) Heq Hne. rewrite Ht, Heq.
    by apply array_get_set_ne.
Qed.

Lemma click_on_empty_square_shows_mark_witness :
  ∃ g' v',
    click two_moves_game 1 = Some g'
    ∧ Game g' = Some v'
    ∧ currentMove g' = 2 + 1
    ∧ length (game_info v') = 2 + 2
    ∧ ∀ t', t' ∈ concat (board_rows (game_board v')) →
        (onSquareClick t' = 1 → shown t' = VStr "X")
        ∧ (∀ t, t ∈ concat (board_rows (game_board (default (mkView (Board true []) [])
                                                    (Game two_moves_game)))) →
             onSquareClick t = onSquareClick t' →
             onSquareClick t' ≠ 1 →
             shown t' = shown t).
Proof.
  apply (click_on_empty_square_shows_mark two_moves_game
           (default (mkView (Board true []) []) (Game two_moves_game))
           (Square VNull 1)).
  - reflexivity.
  - simpl. right. left.
  - reflexivity.
  - reflexivity.
Defined.
